(** * Location resolution of the weather configuration design

    A shallow embedding of the Python code of the design note
    "天气配置设计": the keyword table [LOCATION_KEYWORDS] and the scan
    [extract_location_from_message] of its section 3, and the class
    [WeatherConfig] of its section 6 with [get_location] and
    [_extract_from_message].

    Python strings are sequences of Unicode code points, dictionaries are
    insertion-ordered association lists, [None] is [option]'s [None], and
    the operations that can raise ([d[k]], [m.group(n)]) live in an error
    monad.  The four regular expressions of [_extract_from_message] are run
    by a small backtracking matcher with the semantics of [re.search]; the
    Unicode table behind [\w] and the table [CITY_MAP], which the note
    does not define, are parameters.  [get_location_run] is [get_location]
    with a record of the steps it enters, which gives the tier of a
    result.

    The page script [main.js] is embedded in [MainJs]: the theme switch,
    the back-to-top button, [debounce] and [throttle], each as functions
    on the browser state that its handlers read and write. *)

From Stdlib Require Import List NArith ZArith String Bool Lia Sorted.
From Stdlib.Strings Require Import Byte.
Import ListNotations.

Local Open Scope N_scope.

(* ================================================================== *)
(** ** Python strings *)

(** A [str] is its sequence of code points. *)
Definition str := list N.

(** UTF-8 decoding of a source literal; [fuel] bounds the number of code
    points by the number of bytes. *)
Fixpoint utf8_decode (fuel : nat) (bs : list N) : str :=
  match fuel with
  | O => []
  | S fuel' =>
    match bs with
    | [] => []
    | b0 :: r0 =>
      if b0 <? 0x80 then b0 :: utf8_decode fuel' r0
      else match r0 with
      | [] => []
      | b1 :: r1 =>
        if b0 <? 0xE0
        then ((b0 - 0xC0) * 64 + (b1 - 0x80)) :: utf8_decode fuel' r1
        else match r1 with
        | [] => []
        | b2 :: r2 =>
          if b0 <? 0xF0
          then ((b0 - 0xE0) * 4096 + (b1 - 0x80) * 64 + (b2 - 0x80))
                 :: utf8_decode fuel' r2
          else match r2 with
          | [] => []
          | b3 :: r3 =>
            ((b0 - 0xF0) * 262144 + (b1 - 0x80) * 4096
               + (b2 - 0x80) * 64 + (b3 - 0x80)) :: utf8_decode fuel' r3
          end
        end
      end
    end
  end.

(** The Python literal written between the quotes. *)
Definition py (s : string) : str :=
  let bs := map Byte.to_N (list_byte_of_string s) in
  utf8_decode (List.length bs) bs.

(** A one-character literal. *)
Definition chr (s : string) : N := hd 0 (py s).

Fixpoint str_eqb (a b : str) : bool :=
  match a, b with
  | [], [] => true
  | x :: a', y :: b' => (x =? y) && str_eqb a' b'
  | _, _ => false
  end.

(** [s.startswith(sub)] *)
Fixpoint startswith (s sub : str) {struct sub} : bool :=
  match sub, s with
  | [], _ => true
  | x :: sub', y :: s' => (x =? y) && startswith s' sub'
  | _ :: _, [] => false
  end.

(** [sub in s] *)
Fixpoint contains (sub s : str) : bool :=
  startswith s sub ||
  match s with
  | [] => false
  | _ :: s' => contains sub s'
  end.

(** [s[a:b]] for [0 <= a <= b]. *)
Definition slice (s : str) (a b : nat) : str := firstn (b - a) (skipn a s).

(** [str.isspace] on one code point: the white-space characters of the
    Unicode database. *)
Definition isspace (c : N) : bool :=
  ((0x09 <=? c) && (c <=? 0x0D)) || ((0x1C <=? c) && (c <=? 0x20))
  || (c =? 0x85) || (c =? 0xA0) || (c =? 0x1680)
  || ((0x2000 <=? c) && (c <=? 0x200A))
  || (c =? 0x2028) || (c =? 0x2029) || (c =? 0x202F) || (c =? 0x205F)
  || (c =? 0x3000).

(** The truth value of an [Optional[str]]: [None] and the empty string
    are false. *)
Definition truthy (v : option str) : bool :=
  match v with
  | Some (_ :: _) => true
  | _ => false
  end.

(** The value under [if v:], when the test passes. *)
Definition when_truthy (v : option str) : option str :=
  if truthy v then v else None.

(** [sub] occurs in [s] as a substring. *)
Definition occurs_in (sub s : str) : Prop :=
  exists pre post, s = pre ++ sub ++ post.

(* ================================================================== *)
(** ** Exceptions *)

Inductive exn := KeyError | IndexError.

Inductive result (A : Type) : Type :=
| Ok (a : A)
| Raise (e : exn).
Arguments Ok {A} a.
Arguments Raise {A} e.

Definition bind {A B} (r : result A) (k : A -> result B) : result B :=
  match r with
  | Ok a => k a
  | Raise e => Raise e
  end.

Notation "x <- e ;; k" := (bind e (fun x => k))
  (at level 61, e at next level, right associativity).

(* ================================================================== *)
(** ** Dictionaries *)

(** A [dict] from [str] to [str], in insertion order. *)
Definition dict := list (str * str).

(** [d.get(k)] *)
Fixpoint dict_get (d : dict) (k : str) : option str :=
  match d with
  | [] => None
  | (k', v) :: d' => if str_eqb k' k then Some v else dict_get d' k
  end.

(** [d[k]] *)
Definition dict_getitem (d : dict) (k : str) : result str :=
  match dict_get d k with
  | Some v => Ok v
  | None => Raise KeyError
  end.

(** [d.keys()] *)
Definition keys (d : dict) : list str := map fst d.

(* ================================================================== *)
(** ** Section 3 of the note: the keyword table and its scan *)

Definition LOCATION_KEYWORDS : dict :=
  [ (py "北京", py "Beijing");
    (py "上海", py "Shanghai");
    (py "杭州", py "Hangzhou");
    (py "深圳", py "Shenzhen");
    (py "成都", py "Chengdu");
    (py "广州", py "Guangzhou");
    (py "普洱", py "Puer");
    (py "香港", py "Hong Kong");
    (py "东京", py "Tokyo") ].

(** [extract_location_from_message]; the module-level table, which is
    extensible ("可扩展"), is passed as [keywords], and [keywords.items()]
    is the list itself. *)
Fixpoint extract_location_from_message (keywords : dict) (message : str)
    : option str :=
  match keywords with
  | [] => None
  | (cn, en) :: rest =>
      if contains cn message then Some en
      else extract_location_from_message rest message
  end.

(** The specification's [findLongestMatch], written from its words: among
    the registered entries whose name occurs in [text], the one with the
    longest name, the earliest registered among equally long ones. *)
Fixpoint findLongestMatch (entries : dict) (text : str)
    : option (str * str) :=
  match entries with
  | [] => None
  | e :: rest =>
      let later := findLongestMatch rest text in
      if contains (fst e) text then
        match later with
        | Some e' =>
            if (List.length (fst e) <? List.length (fst e'))%nat
            then Some e' else Some e
        | None => Some e
        end
      else later
  end.

(** The table extended, at its end, by an entry whose name overlaps 上海. *)
Definition KEYWORDS_WITH_PUDONG : dict :=
  LOCATION_KEYWORDS ++ [ (py "上海浦东", py "Pudong") ].

(* ================================================================== *)
(** ** The regular expressions of [_extract_from_message] *)

(** One-character matchers. *)
Inductive atom :=
| LITERAL (c : N)          (* the character itself *)
| IN (cs : list N)         (* [...] *)
| CATEGORY_WORD.           (* \w *)

(** A pattern is a sequence of: one atom, an atom under the greedy
    quantifiers [?] and [+], and the two boundaries of group 1. *)
Inductive op :=
| One (a : atom)
| Opt (a : atom)
| Plus (a : atom)
| GroupOpen
| GroupClose.

Definition pattern := list op.

(** The marks of group 1: where it opened and where it closed. *)
Definition marks := (option nat * option nat)%type.

(** A match object: the subject, the span of the whole match and the
    marks of group 1. *)
Record Match := {
  m_string : str;
  m_start : nat;
  m_end : nat;
  m_marks : marks
}.

(** [m.group(1)]: [IndexError] when the pattern has no group 1. *)
Definition group1 (m : Match) : result str :=
  match m_marks m with
  | (Some a, Some b) => Ok (slice (m_string m) a b)
  | _ => Raise IndexError
  end.

(** Greedy [a+] followed by the continuation [k]: one character is
    required, then as many as possible are taken, and they are given back
    one at a time while [k] fails. *)
Fixpoint repeat_plus {R} (test : N -> bool) (k : str -> nat -> option R)
    (s : str) (i : nat) : option R :=
  match s with
  | c :: s' =>
      if test c then
        match repeat_plus test k s' (S i) with
        | Some r => Some r
        | None => k s' (S i)
        end
      else None
  | [] => None
  end.

Definition suffixes : list N := [chr "市"; chr "区"; chr "县"].

(** [r'在(\w+)[市区县]?'], and the same with 去 and 到 for the cue. *)
Definition cue_pattern (cue : N) : pattern :=
  [ One (LITERAL cue);
    GroupOpen; Plus CATEGORY_WORD; GroupClose;
    Opt (IN suffixes) ].

(** [r'(\w+)[市区县]?的?天气'] *)
Definition weather_pattern : pattern :=
  [ GroupOpen; Plus CATEGORY_WORD; GroupClose;
    Opt (IN suffixes);
    Opt (LITERAL (chr "的"));
    One (LITERAL (chr "天")); One (LITERAL (chr "气")) ].

(** The cues of the first three patterns, in their order. *)
Definition cues : list N := [chr "在"; chr "去"; chr "到"].

Definition patterns : list pattern :=
  [ cue_pattern (chr "在");
    cue_pattern (chr "去");
    cue_pattern (chr "到");
    weather_pattern ].

(* ================================================================== *)
(** ** Section 6 of the note: the class [WeatherConfig] *)

(** The class a classmethod receives as [cls]: the attributes that
    [get_location] reads. *)
Record WeatherConfigClass := {
  DEFAULT_LOCATION : str;
  _get_user_config : Z -> dict
}.

(** The class of the note, over the user-config store it reads. *)
Definition WeatherConfig (get_user_config : Z -> dict) : WeatherConfigClass :=
  {| DEFAULT_LOCATION := py "Shanghai";
     _get_user_config := get_user_config |}.

(** A store in which every user has the stored location [v], or none. *)
Definition lookupReturning (v : option str) : Z -> dict :=
  fun _ =>
    match v with
    | Some l => [ (py "weather_location", l) ]
    | None => []
    end.

(** The three numbered steps of [get_location]. *)
Inductive SourceTier := FromMessage | FromUserConfig | FromSystemDefault.

(** What [get_location] returns, with the step whose [return] it was. *)
Record ResolutionResult := {
  canonicalLocation : str;
  sourceTier : SourceTier
}.

(** A run of [get_location]: the steps entered, in order, and the
    outcome. *)
Record Run := {
  attempted : list SourceTier;
  outcome : result ResolutionResult
}.

(** Steps 2 and 3 of [get_location]: the stored location when there is a
    non-empty one, else the default of the class. *)
Definition config_or_default (cls : WeatherConfigClass) (user_id : Z)
    : result str :=
  let user_config := _get_user_config cls user_id in
  if truthy (dict_get user_config (py "weather_location")) then
    dict_getitem user_config (py "weather_location")
  else
    Ok (DEFAULT_LOCATION cls).

(** The same steps in a run that records them: entered after the steps
    of [log]. *)
Definition from_config_or_default (cls : WeatherConfigClass) (user_id : Z)
    (log : list SourceTier) : Run :=
  let user_config := _get_user_config cls user_id in
  if truthy (dict_get user_config (py "weather_location")) then
    {| attempted := log ++ [FromUserConfig];
       outcome :=
         v <- dict_getitem user_config (py "weather_location") ;;
         Ok {| canonicalLocation := v; sourceTier := FromUserConfig |} |}
  else
    {| attempted := log ++ [FromUserConfig; FromSystemDefault];
       outcome := Ok {| canonicalLocation := DEFAULT_LOCATION cls;
                        sourceTier := FromSystemDefault |} |}.

(** What step 2 yields: the stored location, when there is a non-empty
    one. *)
Definition config_step (cls : WeatherConfigClass) (user_id : Z) : option str :=
  when_truthy (dict_get (_get_user_config cls user_id) (py "weather_location")).

(** [str.isalnum] on the characters of the note's messages: the ASCII
    digits and letters and the CJK unified ideographs are alphanumeric,
    the space and the comma U+FF0C are not; no other character is taken as
    alphanumeric. *)
Definition isalnum_cjk (c : N) : bool :=
  ((0x30 <=? c) && (c <=? 0x39)) || ((0x41 <=? c) && (c <=? 0x5A))
  || ((0x61 <=? c) && (c <=? 0x7A)) || ((0x4E00 <=? c) && (c <=? 0x9FA5)).

(* ================================================================== *)
(** ** The page script [main.js]

    The script works on the browser's state: the local storage, the
    attributes and classes of elements, the queue of animation frames and
    the timers.  Each handler is a function on the part of that state it
    reads and writes; what the browser does between handlers (a frame, a
    timer that fires) is a function of its own. *)

Module MainJs.

Local Open Scope string_scope.

(** *** Theme switch (the block under [if (themeToggle)]) *)

Record Page := {
  (** [localStorage.getItem('theme')], [None] for [null] *)
  stored_theme : option string;
  (** [window.matchMedia('(prefers-color-scheme: dark)').matches] *)
  prefers_dark : bool;
  (** the attribute [data-theme] of [document.documentElement] *)
  data_theme : option string;
  (** the text of [themeIcon], [None] when there is no such element *)
  icon : option string
}.

Definition getCurrentTheme (pg : Page) : string :=
  match stored_theme pg with
  | Some savedTheme =>
      if savedTheme =? "" then
        if prefers_dark pg then "dark" else "light"
      else savedTheme
  | None => if prefers_dark pg then "dark" else "light"
  end.

Definition applyTheme (theme : string) (pg : Page) : Page :=
  if theme =? "dark" then
    {| stored_theme := stored_theme pg;
       prefers_dark := prefers_dark pg;
       data_theme := Some "dark";
       icon := option_map (fun _ => "☀️") (icon pg) |}
  else
    {| stored_theme := stored_theme pg;
       prefers_dark := prefers_dark pg;
       data_theme := None;
       icon := option_map (fun _ => "🌙") (icon pg) |}.

(** What the block does when the script loads; [themeToggle] tells
    whether [document.getElementById('themeToggle')] found the element:
    without it the block is skipped, with it the two statements
    [var currentTheme = getCurrentTheme(); applyTheme(currentTheme);]
    run. *)
Definition initTheme (themeToggle : bool) (pg : Page) : Page :=
  if themeToggle then
    let currentTheme := getCurrentTheme pg in
    applyTheme currentTheme pg
  else pg.

(** The [click] listener of [themeToggle], which the block registers
    when the element is there. *)
Definition onToggleClick (pg : Page) : Page :=
  let isDark :=
    match data_theme pg with
    | Some v => v =? "dark"
    | None => false
    end in
  let newTheme := if isDark then "light" else "dark" in
  let pg' := applyTheme newTheme pg in
  {| stored_theme := Some newTheme;
     prefers_dark := prefers_dark pg';
     data_theme := data_theme pg';
     icon := icon pg' |}.

(** *** Back-to-top button (the block under [if (backToTopBtn)]) *)

Section BackToTop.

(** The numbers of JavaScript, with the two tests the script makes on
    them: being true in a condition (not 0 and not NaN), and [> 300]. *)
Variable number : Type.
Variable truthy_number : number -> bool.
Variable gt_300 : number -> bool.

Record Button := {
  (** the variable [ticking] *)
  ticking : bool;
  (** whether [backToTopBtn.classList] has [visible] *)
  visible : bool;
  (** the calls of [updateBackToTop] queued by
      [requestAnimationFrame] for the next frame *)
  frame_requests : nat
}.

(** [updateBackToTop], with the two scroll positions it reads. *)
Definition updateBackToTop (pageYOffset docScrollTop : number)
    (b : Button) : Button :=
  let scrollTop :=
    if truthy_number pageYOffset then pageYOffset else docScrollTop in
  {| ticking := false;
     visible := if gt_300 scrollTop then true else false;
     frame_requests := frame_requests b |}.

(** The [scroll] listener. *)
Definition onScroll (b : Button) : Button :=
  if negb (ticking b) then
    {| ticking := true;
       visible := visible b;
       frame_requests := S (frame_requests b) |}
  else b.

(** A frame: the browser runs the queued callbacks and empties the
    queue. *)
Definition onFrame (pageYOffset docScrollTop : number) (b : Button)
    : Button :=
  Nat.iter (frame_requests b) (updateBackToTop pageYOffset docScrollTop)
    {| ticking := ticking b; visible := visible b; frame_requests := 0 |}.

Inductive scroll_event :=
| Scroll
| Frame (pageYOffset docScrollTop : number).

Definition scroll_step (b : Button) (ev : scroll_event) : Button :=
  match ev with
  | Scroll => onScroll b
  | Frame y t => onFrame y t b
  end.

(** The button when the script has loaded: [ticking] is false and no
    frame is requested. *)
Definition button_loaded (shown : bool) : Button :=
  {| ticking := false; visible := shown; frame_requests := 0 |}.

End BackToTop.

(** *** [debounce] and [throttle] *)

Section Timers.

(** The arguments of one call of the wrapped function. *)
Variable A : Type.

(** [clearTimeout(id)] on the pending timers; nothing happens for
    [undefined] and for an id that is not pending. *)
Definition clearTimeout (id : option nat) (timers : list (nat * A))
    : list (nat * A) :=
  match id with
  | Some i => filter (fun t => negb (Nat.eqb (fst t) i)) timers
  | None => timers
  end.

(** A function made by [debounce(func, wait)]. *)
Record Debounced := {
  (** the variable [timeout], [None] for [undefined] *)
  timeout : option nat;
  (** the pending timers of [later] closures, each with the arguments
      of its call *)
  later_timers : list (nat * A);
  (** the id that the next [setTimeout] returns *)
  next_timer : nat;
  (** the calls of [func] made so far, oldest first *)
  func_calls : list A
}.

Definition debounce : Debounced :=
  {| timeout := None; later_timers := []; next_timer := 0;
     func_calls := [] |}.

(** [executedFunction(...args)] *)
Definition executedFunction (args : A) (d : Debounced) : Debounced :=
  let timers := clearTimeout (timeout d) (later_timers d) in
  {| timeout := Some (next_timer d);
     later_timers := timers ++ [(next_timer d, args)];
     next_timer := S (next_timer d);
     func_calls := func_calls d |}.

(** The timer [id] fires: it leaves the pending timers and its [later]
    runs, [clearTimeout(timeout); func(...args)]. *)
Definition timerFires (id : nat) (d : Debounced) : Debounced :=
  match find (fun t => Nat.eqb (fst t) id) (later_timers d) with
  | Some (_, args) =>
      let timers := clearTimeout (Some id) (later_timers d) in
      {| timeout := timeout d;
         later_timers := clearTimeout (timeout d) timers;
         next_timer := next_timer d;
         func_calls := func_calls d ++ [args] |}
  | None => d
  end.

Inductive debounce_event :=
| Call (args : A)
| Fires (id : nat).

Definition debounce_step (d : Debounced) (ev : debounce_event) : Debounced :=
  match ev with
  | Call args => executedFunction args d
  | Fires id => timerFires id d
  end.

(** The number of calls of the debounced function in a history. *)
Definition calls_made (evs : list debounce_event) : nat :=
  List.length
    (filter (fun ev => match ev with Call _ => true | Fires _ => false end)
       evs).

(** At most one timer is pending, the one that [timeout] holds. *)
Definition one_pending (d : Debounced) : Prop :=
  later_timers d = [] \/
  exists id args, later_timers d = [(id, args)] /\ timeout d = Some id.

(** A function made by [throttle(func, limit)].  The function that
    [throttle] returns calls [func] in the middle of its body, so a call
    of it is followed in steps: up to [func.apply(this, args)], and from
    there when [func] returns or throws; in between, [func] can call the
    returned function again. *)
Record Throttled := {
  (** the variable [inThrottle], [false] for [undefined] *)
  inThrottle : bool;
  (** the pending timers of [() => inThrottle = false] *)
  reset_timers : nat;
  (** the calls of [func] made so far, oldest first *)
  applied : list A;
  (** the calls of [func] that have started and not ended yet *)
  running : nat
}.

Definition throttle : Throttled :=
  {| inThrottle := false; reset_timers := 0; applied := []; running := 0 |}.

(** The function that [throttle] returns, called with [args], up to
    [func.apply(this, args)]: under [if (!inThrottle)] the call of [func]
    starts; otherwise the function returns at once. *)
Definition throttled (args : A) (t : Throttled) : Throttled :=
  if negb (inThrottle t) then
    {| inThrottle := inThrottle t;
       reset_timers := reset_timers t;
       applied := applied t ++ [args];
       running := S (running t) |}
  else t.

(** The innermost running call of [func] returns: the function that
    called it goes on with [inThrottle = true; setTimeout(...)]. *)
Definition funcReturns (t : Throttled) : Throttled :=
  match running t with
  | S n =>
      {| inThrottle := true;
         reset_timers := S (reset_timers t);
         applied := applied t;
         running := n |}
  | O => t
  end.

(** The innermost running call of [func] throws: the exception leaves
    the function that called it, whose last two statements do not
    run. *)
Definition funcThrows (t : Throttled) : Throttled :=
  match running t with
  | S n =>
      {| inThrottle := inThrottle t;
         reset_timers := reset_timers t;
         applied := applied t;
         running := n |}
  | O => t
  end.

(** One of the pending timers fires; a timer fires only between scripts,
    when no call of [func] is running. *)
Definition resetFires (t : Throttled) : Throttled :=
  match running t, reset_timers t with
  | O, S n =>
      {| inThrottle := false; reset_timers := n; applied := applied t;
         running := 0 |}
  | _, _ => t
  end.

Inductive throttle_event :=
| Apply (args : A)
| Returns
| Throws
| Expires.

Definition throttle_step (t : Throttled) (ev : throttle_event) : Throttled :=
  match ev with
  | Apply args => throttled args t
  | Returns => funcReturns t
  | Throws => funcThrows t
  | Expires => resetFires t
  end.

(** The number of timers that fired in a history. *)
Definition expiries (evs : list throttle_event) : nat :=
  List.length (filter (fun ev => match ev with Expires => true | _ => false end)
                 evs).

(** In the history [evs], from the state [t], every call of [func]
    returns before anything else happens: [func] does not throw and does
    not call the throttled function again.  [Returns] and [Throws] stand
    only where a call of [func] is running, and none is running at the
    end. *)
Fixpoint returns_at_once (t : Throttled) (evs : list throttle_event) : bool :=
  match evs with
  | [] => Nat.eqb (running t) 0
  | ev :: evs' =>
      match running t, ev with
      | O, Apply _ | O, Expires | S _, Returns =>
          returns_at_once (throttle_step t ev) evs'
      | _, _ => false
      end
  end.

End Timers.

Arguments updateBackToTop {number}.
Arguments onFrame {number}.
Arguments Scroll {number}.
Arguments Frame {number}.
Arguments scroll_step {number}.
Arguments clearTimeout {A}.
Arguments timeout {A}.
Arguments later_timers {A}.
Arguments next_timer {A}.
Arguments func_calls {A}.
Arguments executedFunction {A}.
Arguments timerFires {A}.
Arguments Call {A}.
Arguments Fires {A}.
Arguments debounce_step {A}.
Arguments calls_made {A}.
Arguments one_pending {A}.
Arguments inThrottle {A}.
Arguments reset_timers {A}.
Arguments applied {A}.
Arguments running {A}.
Arguments throttled {A}.
Arguments funcReturns {A}.
Arguments funcThrows {A}.
Arguments resetFires {A}.
Arguments Apply {A}.
Arguments Returns {A}.
Arguments Throws {A}.
Arguments Expires {A}.
Arguments throttle_step {A}.
Arguments expiries {A}.
Arguments returns_at_once {A}.

End MainJs.

Module Note.

(** Modelled from the spec: the table [CITY_MAP] that
    [_extract_from_message] reads is defined nowhere in the note; the
    specification has one dictionary for the scan and for the patterns, and
    the keyword table of section 3 stands for it. *)
Definition CITY_MAP : dict := LOCATION_KEYWORDS.

End Note.

Section Resolver.

(** [str.isalnum] of the Unicode database, one code point at a time. *)
Variable isalnum : N -> bool.

(** The module-level table [CITY_MAP], which [_extract_from_message]
    reads and the note defines nowhere. *)
Variable CITY_MAP : dict.

(** [\w] in a [str] pattern: alphanumeric or the underscore. *)
Definition is_word (c : N) : bool := isalnum c || (c =? chr "_").

Definition atom_match (a : atom) (c : N) : bool :=
  match a with
  | LITERAL x => c =? x
  | IN cs => existsb (N.eqb c) cs
  | CATEGORY_WORD => is_word c
  end.

(** Match [p] against [s], the rest of the subject from position [i];
    the result is the end of the match and the marks. *)
Fixpoint match_at (p : pattern) (s : str) (i : nat) (mk : marks)
    {struct p} : option (nat * marks) :=
  match p with
  | [] => Some (i, mk)
  | One a :: p' =>
      match s with
      | c :: s' => if atom_match a c then match_at p' s' (S i) mk else None
      | [] => None
      end
  | Opt a :: p' =>
      match s with
      | c :: s' =>
          if atom_match a c then
            match match_at p' s' (S i) mk with
            | Some r => Some r
            | None => match_at p' s i mk
            end
          else match_at p' s i mk
      | [] => match_at p' s i mk
      end
  | Plus a :: p' =>
      repeat_plus (atom_match a) (fun s' i' => match_at p' s' i' mk) s i
  | GroupOpen :: p' => match_at p' s i (Some i, snd mk)
  | GroupClose :: p' => match_at p' s i (fst mk, Some i)
  end.

(** The first position from [i] on at which [p] matches. *)
Fixpoint search_from (p : pattern) (s : str) (i : nat)
    : option (nat * nat * marks) :=
  match match_at p s i (None, None) with
  | Some (e, mk) => Some (i, e, mk)
  | None =>
      match s with
      | [] => None
      | _ :: s' => search_from p s' (S i)
      end
  end.

(** [re.search(pattern, string)] *)
Definition re_search (p : pattern) (string : str) : option Match :=
  match search_from p string 0 with
  | Some (b, e, mk) =>
      Some {| m_string := string; m_start := b; m_end := e; m_marks := mk |}
  | None => None
  end.

(** The loop [for pattern in patterns] of [_extract_from_message]: the
    first pattern that matches returns. *)
Fixpoint for_pattern_in (ps : list pattern) (message : str)
    : result (option str) :=
  match ps with
  | [] => Ok None
  | pattern :: rest =>
      match re_search pattern message with
      | Some m =>
          city_cn <- group1 m ;;
          Ok (dict_get CITY_MAP city_cn)
      | None => for_pattern_in rest message
      end
  end.

Definition _extract_from_message (message : str) : result (option str) :=
  for_pattern_in patterns message.

(** [WeatherConfig.get_location] *)
Definition get_location (cls : WeatherConfigClass) (user_id : Z)
    (message : option str) : result str :=
  match when_truthy message with
  | Some message =>
      location <- _extract_from_message message ;;
      match when_truthy location with
      | Some location => Ok location
      | None => config_or_default cls user_id
      end
  | None => config_or_default cls user_id
  end.

(** [get_location] again, as a run that records the numbered steps it
    enters and the step whose [return] gives the result. *)
Definition get_location_run (cls : WeatherConfigClass) (user_id : Z)
    (message : option str) : Run :=
  match when_truthy message with
  | Some message =>
      match _extract_from_message message with
      | Raise e => {| attempted := [FromMessage]; outcome := Raise e |}
      | Ok location =>
          match when_truthy location with
          | Some location =>
              {| attempted := [FromMessage];
                 outcome := Ok {| canonicalLocation := location;
                                  sourceTier := FromMessage |} |}
          | None => from_config_or_default cls user_id [FromMessage]
          end
      end
  | None => from_config_or_default cls user_id []
  end.

(** What step 1 yields: the location extracted from a message that is
    present and not empty, when there is a non-empty one. *)
Definition message_step (message : option str) : option str :=
  match when_truthy message with
  | Some message =>
      match _extract_from_message message with
      | Ok location => when_truthy location
      | Raise _ => None
      end
  | None => None
  end.

(** [p] is the first of [patterns] to match [message], with match [m]. *)
Definition first_match (message : str) (p : pattern) (m : Match) : Prop :=
  exists before after,
    patterns = before ++ p :: after /\
    (forall q, In q before -> re_search q message = None) /\
    re_search p message = Some m.

(** A word character is next in [s]. *)
Definition word_ahead (s : str) : bool :=
  match s with
  | c :: _ => is_word c
  | [] => false
  end.

(** The word characters at the start of [s]. *)
Fixpoint word_run (s : str) : str :=
  match s with
  | c :: s' => if is_word c then c :: word_run s' else []
  | [] => []
  end.

(** [s] starts with the cue and a word character after it. *)
Definition cue_at (cue : N) (s : str) : bool :=
  match s with
  | c :: t => (c =? cue) && word_ahead t
  | [] => false
  end.

(** A cue pattern with [tail] in the place of the optional suffix:
    [cue_pattern cue] is [cue_pattern_with cue [Opt (IN suffixes)]]. *)
Definition cue_pattern_with (cue : N) (tail : pattern) : pattern :=
  One (LITERAL cue) :: GroupOpen :: Plus CATEGORY_WORD :: GroupClose :: tail.

(** A tail that matches everywhere and leaves the marks alone, as the
    empty tail and one optional atom do. *)
Definition total_tail (tail : pattern) : Prop :=
  forall s j mk, exists e, match_at tail s j mk = Some (e, mk).

(** The start and group 1 of the match that a search gives. *)
Definition start_and_group (r : option Match) : option (nat * result str) :=
  option_map (fun m => (m_start m, group1 m)) r.

(* ================================================================== *)
(** ** Strings and dictionaries *)

Arguments py : simpl never.
Arguments chr : simpl never.

Lemma str_eqb_eq (a b : str) : str_eqb a b = true <-> a = b.
Proof.
  revert b; induction a as [|x a IH]; intros [|y b]; simpl; split;
    try congruence; try reflexivity.
  - intros H. apply andb_true_iff in H as [Hx Hab].
    apply N.eqb_eq in Hx. apply IH in Hab. congruence.
  - intros H. injection H as -> ->. rewrite N.eqb_refl. simpl. now apply IH.
Qed.

Lemma str_eqb_refl (a : str) : str_eqb a a = true.
Proof. now apply str_eqb_eq. Qed.

Lemma startswith_spec (s sub : str) :
  startswith s sub = true <-> exists post, s = sub ++ post.
Proof.
  revert s; induction sub as [|x sub IH]; intros s; simpl.
  - split; [intros _; now exists s | reflexivity].
  - destruct s as [|y s]; split.
    + discriminate.
    + intros [post H]. discriminate.
    + intros H. apply andb_true_iff in H as [Hx Hs].
      apply N.eqb_eq in Hx. apply IH in Hs as [post ->].
      exists post. now subst.
    + intros [post H]. injection H as -> ->.
      rewrite N.eqb_refl. simpl. apply IH. now exists post.
Qed.

Lemma contains_spec (sub s : str) :
  contains sub s = true <-> occurs_in sub s.
Proof.
  unfold occurs_in. induction s as [|y s IH].
  - simpl. rewrite orb_false_r, startswith_spec. split.
    + intros [post H]. now exists [], post.
    + intros [[|] [post H]]; [now exists post | discriminate].
  - cbn [contains]. rewrite orb_true_iff, startswith_spec, IH. split.
    + intros [[post H] | (pre & post & H)].
      * now exists [], post.
      * exists (y :: pre), post. now rewrite H.
    + intros ([|z pre] & post & H).
      * left. now exists post.
      * right. injection H as _ H. now exists pre, post.
Qed.

Lemma dict_get_None (d : dict) (k : str) :
  dict_get d k = None <-> ~ In k (keys d).
Proof.
  induction d as [|[k' v] d IH]; simpl.
  - tauto.
  - destruct (str_eqb k' k) eqn:E.
    + apply str_eqb_eq in E. split; [discriminate | tauto].
    + rewrite IH. split; [|tauto].
      intros H [H' | H']; [|tauto].
      subst. rewrite str_eqb_refl in E. discriminate.
Qed.

Lemma dict_get_Some (d : dict) (k v : str) :
  dict_get d k = Some v -> In (k, v) d.
Proof.
  induction d as [|[k' v'] d IH]; simpl; [discriminate|].
  destruct (str_eqb k' k) eqn:E.
  - apply str_eqb_eq in E. intros [= ->]. left. now subst.
  - intros H. right. now apply IH.
Qed.

Lemma when_truthy_Some (v : option str) (l : str) :
  when_truthy v = Some l <-> v = Some l /\ l <> [].
Proof.
  unfold when_truthy. destruct v as [[|c v]|]; simpl; split;
    try discriminate; try (intros [H H']; congruence).
  intros [= <-]. split; [reflexivity | discriminate].
Qed.

Lemma when_truthy_None (v : option str) :
  when_truthy v = None <-> v = None \/ v = Some [].
Proof.
  unfold when_truthy. destruct v as [[|c v]|]; simpl; split;
    try discriminate; try tauto.
  intros [H | H]; discriminate.
Qed.

(* ================================================================== *)
(** ** The keyword scan of section 3 *)

Lemma extract_location_None (keywords : dict) (text : str) :
  extract_location_from_message keywords text = None <->
  forall cn, In cn (keys keywords) -> ~ occurs_in cn text.
Proof.
  induction keywords as [|[cn en] rest IH]; simpl.
  - split; [intros _ cn [] | reflexivity].
  - destruct (contains cn text) eqn:E.
    + split; [discriminate|]. intros H. exfalso.
      apply (H cn); [now left | now apply contains_spec].
    + rewrite IH. split.
      * intros H cn' [<- | Hin]; [|now apply H].
        rewrite <- contains_spec, E. discriminate.
      * intros H cn' Hin. apply H. now right.
Qed.

Lemma extract_location_Some (keywords : dict) (text en : str) :
  extract_location_from_message keywords text = Some en ->
  exists before cn after,
    keywords = before ++ (cn, en) :: after /\
    occurs_in cn text /\
    forall cn', In cn' (keys before) -> ~ occurs_in cn' text.
Proof.
  induction keywords as [|[cn' en'] rest IH]; simpl; [discriminate|].
  destruct (contains cn' text) eqn:E.
  - intros [= ->]. exists [], cn', rest. split; [reflexivity|].
    split; [now apply contains_spec | intros ? []].
  - intros H. destruct (IH H) as (before & cn & after & -> & Hocc & Hbefore).
    exists ((cn', en') :: before), cn, after.
    split; [reflexivity|]. split; [exact Hocc|].
    intros cn'' [<- | Hin]; [|now apply Hbefore].
    simpl. rewrite <- contains_spec, E. discriminate.
Qed.

Lemma findLongestMatch_In (entries : dict) (text : str) (e : str * str) :
  findLongestMatch entries text = Some e -> In e entries.
Proof.
  revert e; induction entries as [|e0 rest IH]; simpl; [discriminate|].
  intros e.
  destruct (contains (fst e0) text), (findLongestMatch rest text) as [e'|];
    try discriminate.
  - destruct (List.length (fst e0) <? List.length (fst e'))%nat;
      intros [= <-]; [right; now apply IH | now left].
  - intros [= <-]. now left.
  - intros [= <-]. right. now apply IH.
Qed.

Lemma extract_location_longest_first (keywords : dict) (text : str) :
  StronglySorted (fun a b => (List.length b <= List.length a)%nat)
                 (keys keywords) ->
  extract_location_from_message keywords text
  = option_map snd (findLongestMatch keywords text).
Proof.
  induction keywords as [|[cn en] rest IH]; simpl; [reflexivity|].
  intros Hs. apply StronglySorted_inv in Hs as [Hrest Hcn].
  destruct (contains cn text).
  - destruct (findLongestMatch rest text) as [e'|] eqn:E; [|reflexivity].
    apply findLongestMatch_In in E.
    rewrite Forall_forall in Hcn.
    assert (List.length (fst e') <= List.length cn)%nat as Hle
      by (apply Hcn; unfold keys; now apply in_map).
    apply Nat.ltb_ge in Hle. now rewrite Hle.
  - now apply IH.
Qed.

(** C2, as the code has it: the scan returns the canonical id of the
    earliest registered entry whose name occurs in the text, and nothing
    exactly when no registered name occurs in it; when the names are
    registered longest first (in the table of the note they all have two
    characters) this entry is the one [findLongestMatch] describes, the
    longest occurring name, the earliest registered among equally long
    ones. *)
Theorem extract_location_first_registered :
  forall (keywords : dict) (text : str),
    (extract_location_from_message keywords text = None <->
       forall cn, In cn (keys keywords) -> ~ occurs_in cn text) /\
    (forall en, extract_location_from_message keywords text = Some en ->
       exists before cn after,
         keywords = before ++ (cn, en) :: after /\
         occurs_in cn text /\
         forall cn', In cn' (keys before) -> ~ occurs_in cn' text) /\
    (StronglySorted (fun a b => (List.length b <= List.length a)%nat)
                    (keys keywords) ->
       extract_location_from_message keywords text
       = option_map snd (findLongestMatch keywords text)).
Proof.
  intros keywords text. split; [apply extract_location_None|].
  split; [apply extract_location_Some | apply extract_location_longest_first].
Qed.

Lemma extract_location_first_registered_witness :
  extract_location_from_message LOCATION_KEYWORDS (py "今天在杭州西湖边散步")
  = option_map snd
      (findLongestMatch LOCATION_KEYWORDS (py "今天在杭州西湖边散步")).
Proof.
  apply (extract_location_first_registered
           LOCATION_KEYWORDS (py "今天在杭州西湖边散步")).
  vm_compute.
  repeat (first [apply SSorted_nil | apply SSorted_cons
                | apply Forall_nil | apply Forall_cons]); lia.
Defined.

(** C2 fails as stated: with 上海浦东 registered after 上海, a text in which
    both occur gives the entry of the shorter name 上海, registered first,
    and not the longest match. *)
Lemma first_registered_shadows_longer :
  occurs_in (py "上海") (py "上海浦东机场") /\
  occurs_in (py "上海浦东") (py "上海浦东机场") /\
  (List.length (py "上海") < List.length (py "上海浦东"))%nat /\
  findLongestMatch KEYWORDS_WITH_PUDONG (py "上海浦东机场")
    = Some (py "上海浦东", py "Pudong") /\
  extract_location_from_message KEYWORDS_WITH_PUDONG (py "上海浦东机场")
    = Some (py "Shanghai") /\
  extract_location_from_message KEYWORDS_WITH_PUDONG (py "上海浦东机场")
    <> option_map snd (findLongestMatch KEYWORDS_WITH_PUDONG (py "上海浦东机场")).
Proof.
  split; [apply contains_spec; reflexivity|].
  split; [apply contains_spec; reflexivity|].
  split; [vm_compute; lia|].
  split; [reflexivity|]. split; [reflexivity|].
  vm_compute. discriminate.
Qed.

(* ================================================================== *)
(** ** The matcher *)

Lemma repeat_plus_Some {R} (test : N -> bool) (k : str -> nat -> option R)
    (s : str) (i : nat) (r : R) :
  repeat_plus test k s i = Some r -> exists s' i', k s' i' = Some r.
Proof.
  revert i; induction s as [|c s IH]; intros i; simpl; [discriminate|].
  destruct (test c); [|discriminate].
  destruct (repeat_plus test k s (S i)) eqn:E.
  - intros [= <-]. eapply IH, E.
  - intros H. now exists s, (S i).
Qed.

(** Greedy repetition over a whole run: when the continuation accepts what
    follows the run, that is the result. *)
Lemma repeat_plus_run {R} (test : N -> bool) (k : str -> nat -> option R)
    (run rest : str) (i : nat) (r : R) :
  run <> [] ->
  Forall (fun c => test c = true) run ->
  repeat_plus test k rest (i + List.length run) = None ->
  k rest (i + List.length run)%nat = Some r ->
  repeat_plus test k (run ++ rest) i = Some r.
Proof.
  revert i; induction run as [|c run IH]; intros i Hne Hall Hstop Hk;
    [congruence|].
  apply Forall_cons_iff in Hall as [Hc Hall].
  simpl in *. rewrite Hc.
  replace (i + S (List.length run))%nat
    with (S i + List.length run)%nat in * by lia.
  destruct run as [|c' run].
  - simpl in *. rewrite Nat.add_0_r in *. now rewrite Hstop.
  - rewrite (IH (S i)); [reflexivity | discriminate | assumption ..].
Qed.

Lemma repeat_plus_no_word {R} (k : str -> nat -> option R)
    (s : str) (i : nat) :
  word_ahead s = false ->
  repeat_plus is_word k s i = None.
Proof.
  destruct s as [|c s]; simpl; [reflexivity|]. now intros ->.
Qed.

(** A match sets a mark of group 1 that its pattern mentions, and keeps
    one that was set. *)
Lemma match_at_marks (p : pattern) :
  forall s i mk e mk',
    match_at p s i mk = Some (e, mk') ->
    (In GroupOpen p \/ fst mk <> None -> fst mk' <> None) /\
    (In GroupClose p \/ snd mk <> None -> snd mk' <> None).
Proof.
  induction p as [|o p IH]; intros s i mk e mk'; simpl.
  - intros [= _ <-]. split; intros [[] | H]; exact H.
  - assert (forall s i mk,
               match_at p s i mk = Some (e, mk') ->
               (In GroupOpen p \/ fst mk <> None -> fst mk' <> None) /\
               (In GroupClose p \/ snd mk <> None -> snd mk' <> None))
      as IH' by (intros; eapply IH; eassumption).
    destruct o as [a | a | a | |].
    + destruct s as [|c s]; [discriminate|].
      destruct (atom_match a c); [|discriminate].
      intros H. apply IH' in H as [H1 H2].
      split; intros [[H | H] | H]; try discriminate; auto.
    + intros H.
      assert (exists s' i', match_at p s' i' mk = Some (e, mk')) as (s' & i' & H').
      { destruct s as [|c s]; [eauto|].
        destruct (atom_match a c); [|eauto].
        destruct (match_at p s (S i) mk) eqn:E; [|eauto].
        injection H as ->. eauto. }
      apply IH' in H' as [H1 H2].
      split; intros [[H0 | H0] | H0]; try discriminate; auto.
    + intros H. apply repeat_plus_Some in H as (s' & i' & H).
      apply IH' in H as [H1 H2].
      split; intros [[H0 | H0] | H0]; try discriminate; auto.
    + intros H. apply IH' in H as [H1 H2]. simpl in *.
      split; [intros _; apply H1; right; discriminate|].
      intros [[H0 | H0] | H0]; try discriminate; auto.
    + intros H. apply IH' in H as [H1 H2]. simpl in *.
      split; [|intros _; apply H2; right; discriminate].
      intros [[H0 | H0] | H0]; try discriminate; auto.
Qed.

Lemma search_from_marks (p : pattern) (s : str) :
  forall i b e mk,
    search_from p s i = Some (b, e, mk) ->
    In GroupOpen p -> In GroupClose p ->
    exists lo hi, mk = (Some lo, Some hi).
Proof.
  induction s as [|c s IH]; intros i b e mk; simpl;
    destruct (match_at p _ i (None, None)) as [[e' mk']|] eqn:E;
    try discriminate; try (now apply IH).
  all: intros [= _ _ <-] Ho Hc;
    apply match_at_marks in E as [H1 H2];
    destruct mk' as [[lo|] [hi|]]; simpl in *;
    try (exfalso; apply H1; auto; fail);
    try (exfalso; apply H2; auto; fail); eauto.
Qed.

(** [m.group(1)] does not raise on a match of a pattern with a group. *)
Lemma group1_Ok (p : pattern) (message : str) (m : Match) :
  re_search p message = Some m ->
  In GroupOpen p -> In GroupClose p ->
  exists city_cn, group1 m = Ok city_cn.
Proof.
  unfold re_search.
  destruct (search_from p message 0) as [[[b e] mk]|] eqn:E; [|discriminate].
  intros [= <-] Ho Hc.
  destruct (search_from_marks p message 0%nat b e mk E Ho Hc) as (lo & hi & ->).
  unfold group1. simpl. eauto.
Qed.

Lemma patterns_have_group (p : pattern) :
  In p patterns -> In GroupOpen p /\ In GroupClose p.
Proof.
  unfold patterns, cue_pattern, weather_pattern. simpl.
  intros [<- | [<- | [<- | [<- | []]]]]; simpl; auto 10.
Qed.

(* ================================================================== *)
(** ** The loop over the patterns *)

Lemma for_pattern_in_first (before after : list pattern) (p : pattern)
    (message : str) (m : Match) :
  (forall q, In q before -> re_search q message = None) ->
  re_search p message = Some m ->
  for_pattern_in (before ++ p :: after) message
  = (city_cn <- group1 m ;; Ok (dict_get CITY_MAP city_cn)).
Proof.
  induction before as [|q before IH]; simpl; intros Hbefore Hp.
  - now rewrite Hp.
  - rewrite (Hbefore q) by now left. apply IH; auto.
Qed.

Lemma for_pattern_in_cases (ps : list pattern) (message : str) :
  ((forall q, In q ps -> re_search q message = None) /\
   for_pattern_in ps message = Ok None) \/
  (exists before p after m,
     ps = before ++ p :: after /\
     (forall q, In q before -> re_search q message = None) /\
     re_search p message = Some m).
Proof.
  induction ps as [|q ps IH]; simpl.
  - left. split; [intros q [] | reflexivity].
  - destruct (re_search q message) as [m|] eqn:E.
    + right. exists [], q, ps, m. repeat split; auto. intros ? [].
    + destruct IH as [[Hnone Hr] | (before & p & after & m & -> & Hb & Hp)].
      * left. split; [|exact Hr]. intros q' [<- | Hin]; auto.
      * right. exists (q :: before), p, after, m. repeat split; auto.
        intros q' [<- | Hin]; auto.
Qed.

(** [_extract_from_message] does not raise. *)
Lemma extract_from_message_Ok (message : str) :
  exists location, _extract_from_message message = Ok location.
Proof.
  unfold _extract_from_message.
  destruct (for_pattern_in_cases patterns message)
    as [[_ H] | (before & p & after & m & Hps & Hb & Hp)]; [eauto|].
  rewrite Hps, (for_pattern_in_first before after p message m Hb Hp).
  assert (In p patterns) as Hin by (rewrite Hps; apply in_elt).
  apply patterns_have_group in Hin as [Ho Hc].
  destruct (group1_Ok p message m Hp Ho Hc) as [city_cn ->]. simpl. eauto.
Qed.

Lemma first_match_extract (message : str) (p : pattern) (m : Match) :
  first_match message p m ->
  exists city_cn,
    group1 m = Ok city_cn /\
    _extract_from_message message = Ok (dict_get CITY_MAP city_cn).
Proof.
  intros (before & after & Hps & Hb & Hp).
  assert (In p patterns) as Hin by (rewrite Hps; apply in_elt).
  apply patterns_have_group in Hin as [Ho Hc].
  destruct (group1_Ok p message m Hp Ho Hc) as [city_cn Hg].
  exists city_cn. split; [exact Hg|].
  unfold _extract_from_message.
  now rewrite Hps, (for_pattern_in_first before after p message m Hb Hp), Hg.
Qed.

(** What [_extract_from_message] returns comes from the first match. *)
Lemma extract_from_message_Some (message location : str) :
  _extract_from_message message = Ok (Some location) ->
  exists p m city_cn,
    first_match message p m /\
    group1 m = Ok city_cn /\
    dict_get CITY_MAP city_cn = Some location.
Proof.
  intros H. unfold _extract_from_message in H.
  destruct (for_pattern_in_cases patterns message)
    as [[_ H'] | (before & p & after & m & Hps & Hb & Hp)]; [congruence|].
  assert (first_match message p m) as Hfm by (exists before, after; auto).
  destruct (first_match_extract message p m Hfm) as (city_cn & Hg & He).
  unfold _extract_from_message in He. rewrite He in H.
  exists p, m, city_cn. repeat split; auto. congruence.
Qed.

(** No pattern matches the empty string. *)
Lemma re_search_nil (p : pattern) :
  In p patterns -> re_search p [] = None.
Proof.
  unfold patterns. simpl.
  intros [<- | [<- | [<- | [<- | []]]]]; reflexivity.
Qed.

Lemma first_match_nonempty (message : str) (p : pattern) (m : Match) :
  first_match message p m -> message <> [].
Proof.
  intros (before & after & Hps & _ & Hp) ->.
  rewrite re_search_nil in Hp; [discriminate|].
  rewrite Hps. apply in_elt.
Qed.

(* ================================================================== *)
(** ** The three tiers *)

Lemma from_config_or_default_eq (cls : WeatherConfigClass) (user_id : Z)
    (log : list SourceTier) :
  from_config_or_default cls user_id log =
  match config_step cls user_id with
  | Some stored =>
      {| attempted := log ++ [FromUserConfig];
         outcome := Ok {| canonicalLocation := stored;
                          sourceTier := FromUserConfig |} |}
  | None =>
      {| attempted := log ++ [FromUserConfig; FromSystemDefault];
         outcome := Ok {| canonicalLocation := DEFAULT_LOCATION cls;
                          sourceTier := FromSystemDefault |} |}
  end.
Proof.
  unfold from_config_or_default, config_step, when_truthy, dict_getitem.
  destruct (dict_get (_get_user_config cls user_id) (py "weather_location"))
    as [[|c v]|]; reflexivity.
Qed.

Lemma get_location_eq (cls : WeatherConfigClass) (user_id : Z)
    (message : option str) :
  get_location_run cls user_id message =
  match message_step message with
  | Some location =>
      {| attempted := [FromMessage];
         outcome := Ok {| canonicalLocation := location;
                          sourceTier := FromMessage |} |}
  | None =>
      from_config_or_default cls user_id
        (if truthy message then [FromMessage] else [])
  end.
Proof.
  unfold get_location_run, message_step, when_truthy at 1 3.
  destruct (truthy message) eqn:Et; [|reflexivity].
  destruct message as [message|]; [|discriminate].
  destruct (extract_from_message_Ok message) as [location ->].
  destruct (when_truthy location); reflexivity.
Qed.

Lemma outcome_from_config_or_default (cls : WeatherConfigClass)
    (user_id : Z) (log log' : list SourceTier) :
  outcome (from_config_or_default cls user_id log)
  = outcome (from_config_or_default cls user_id log').
Proof.
  rewrite !from_config_or_default_eq.
  destruct (config_step cls user_id); reflexivity.
Qed.

Lemma config_or_default_of_run (cls : WeatherConfigClass) (user_id : Z)
    (log : list SourceTier) :
  config_or_default cls user_id
  = (r <- outcome (from_config_or_default cls user_id log) ;;
     Ok (canonicalLocation r)).
Proof.
  unfold config_or_default, from_config_or_default, dict_getitem.
  destruct (dict_get (_get_user_config cls user_id) (py "weather_location"))
    as [[|c v]|]; reflexivity.
Qed.

(** The location of the recorded run is what [get_location] returns. *)
Lemma get_location_of_run (cls : WeatherConfigClass) (user_id : Z)
    (message : option str) :
  get_location cls user_id message
  = (r <- outcome (get_location_run cls user_id message) ;;
     Ok (canonicalLocation r)).
Proof.
  unfold get_location, get_location_run.
  destruct (when_truthy message) as [text|];
    [|apply config_or_default_of_run].
  destruct (_extract_from_message text) as [location|e]; [|reflexivity].
  simpl. destruct (when_truthy location);
    [reflexivity | apply config_or_default_of_run].
Qed.

Lemma get_location_fall_through (cls : WeatherConfigClass) (user_id : Z)
    (message : str) :
  get_location_run cls user_id (Some message)
  = from_config_or_default cls user_id [FromMessage] ->
  get_location cls user_id (Some message) = get_location cls user_id None.
Proof.
  intros H. rewrite !get_location_of_run, H.
  unfold get_location_run. cbn [when_truthy truthy].
  now rewrite (outcome_from_config_or_default cls user_id [FromMessage] []).
Qed.

(** C1: [get_location] applies the three tiers in their order.  When the
    message step yields a location, that is the result, with tier
    [FromMessage], and no other step is entered; otherwise the user-config
    step is entered, and its stored location is the result, with tier
    [FromUserConfig]; the system default is reached, with tier
    [FromSystemDefault], only when that step yields nothing either.  The
    tier of the result is the last step entered, and its location is what
    [get_location] returns. *)
Theorem get_location_three_tiers :
  forall (cls : WeatherConfigClass) (user_id : Z) (message : option str),
    get_location_run cls user_id message =
    match message_step message with
    | Some location =>
        {| attempted := [FromMessage];
           outcome := Ok {| canonicalLocation := location;
                            sourceTier := FromMessage |} |}
    | None =>
        match config_step cls user_id with
        | Some stored =>
            {| attempted :=
                 (if truthy message then [FromMessage] else [])
                 ++ [FromUserConfig];
               outcome := Ok {| canonicalLocation := stored;
                                sourceTier := FromUserConfig |} |}
        | None =>
            {| attempted :=
                 (if truthy message then [FromMessage] else [])
                 ++ [FromUserConfig; FromSystemDefault];
               outcome := Ok {| canonicalLocation := DEFAULT_LOCATION cls;
                                sourceTier := FromSystemDefault |} |}
        end
    end
    /\ (In FromUserConfig (attempted (get_location_run cls user_id message))
        <-> message_step message = None)
    /\ (In FromSystemDefault (attempted (get_location_run cls user_id message))
        <-> message_step message = None /\ config_step cls user_id = None)
    /\ (forall r,
          outcome (get_location_run cls user_id message) = Ok r ->
          last (attempted (get_location_run cls user_id message)) FromMessage
          = sourceTier r /\
          get_location cls user_id message = Ok (canonicalLocation r)).
Proof.
  intros cls user_id message. rewrite get_location_of_run.
  rewrite get_location_eq, from_config_or_default_eq.
  destruct (message_step message) as [location|];
    [|destruct (config_step cls user_id) as [stored|]];
    (split; [reflexivity|]); simpl attempted; simpl outcome;
    destruct (truthy message); simpl;
    (split; [|split]);
    try (intros r [= <-]; split; reflexivity);
    intuition congruence.
Qed.

(** C7: [get_location] never raises: the extraction returns a location
    or [None], the stored location is read only when it is there, and the
    result is a location, which is not empty when the default is not; when
    the message and the user config yield nothing it is the system
    default, with tier [FromSystemDefault], and the default of the class
    of the note is not empty. *)
Theorem get_location_never_raises :
  forall (cls : WeatherConfigClass) (user_id : Z) (message : option str),
    (forall text, exists location, _extract_from_message text = Ok location)
    /\ (exists r,
          outcome (get_location_run cls user_id message) = Ok r /\
          get_location cls user_id message = Ok (canonicalLocation r) /\
          (DEFAULT_LOCATION cls <> [] -> canonicalLocation r <> []) /\
          (message_step message = None ->
           config_step cls user_id = None ->
           r = {| canonicalLocation := DEFAULT_LOCATION cls;
                  sourceTier := FromSystemDefault |}))
    /\ (forall store, DEFAULT_LOCATION (WeatherConfig store) <> []).
Proof.
  intros cls user_id message.
  split; [exact extract_from_message_Ok|].
  split; [|intros store; discriminate].
  rewrite get_location_of_run.
  rewrite get_location_eq, from_config_or_default_eq.
  destruct (message_step message) as [location|] eqn:Em.
  - eexists. split; [reflexivity|]. split; [reflexivity|].
    split; [|discriminate].
    intros _. simpl.
    unfold message_step in Em.
    destruct (when_truthy message); [|discriminate].
    destruct (_extract_from_message s); [|discriminate].
    now apply when_truthy_Some in Em.
  - destruct (config_step cls user_id) as [stored|] eqn:Ec.
    + eexists. split; [reflexivity|]. split; [reflexivity|].
      split; [|discriminate].
      intros _. simpl. unfold config_step in Ec.
      now apply when_truthy_Some in Ec.
    + eexists. split; [reflexivity|]. split; [reflexivity|]. split; auto.
Qed.

(** C6: when the pattern that matches captured a name that the dictionary
    does not know, the extraction yields nothing and the resolution goes
    on with the user config, to the result of an absent message; and a
    location resolved from the message is always the dictionary's entry
    for the captured name. *)
Theorem unrecognized_capture_discarded :
  forall (message : str),
    (forall p m city_cn,
        first_match message p m ->
        group1 m = Ok city_cn ->
        dict_get CITY_MAP city_cn = None ->
        _extract_from_message message = Ok None /\
        forall cls user_id,
          get_location_run cls user_id (Some message)
          = from_config_or_default cls user_id [FromMessage] /\
          get_location cls user_id (Some message)
          = get_location cls user_id None)
    /\ (forall cls user_id r,
          outcome (get_location_run cls user_id (Some message)) = Ok r ->
          sourceTier r = FromMessage ->
          exists p m city_cn,
            first_match message p m /\
            group1 m = Ok city_cn /\
            dict_get CITY_MAP city_cn = Some (canonicalLocation r)).
Proof.
  intros message. split.
  - intros p m city_cn Hfm Hg Hget.
    destruct (first_match_extract message p m Hfm) as (city' & Hg' & He).
    assert (city' = city_cn) as -> by congruence.
    rewrite Hget in He. split; [exact He|].
    intros cls user_id.
    assert (get_location_run cls user_id (Some message)
            = from_config_or_default cls user_id [FromMessage]) as Hrun.
    { rewrite get_location_eq. unfold message_step.
      pose proof (first_match_nonempty message p m Hfm) as Hne.
      destruct message as [|c message]; [congruence|].
      cbn [when_truthy truthy]. now rewrite He. }
    split; [exact Hrun | now apply get_location_fall_through].
  - intros cls user_id r. rewrite get_location_eq.
    destruct (message_step (Some message)) as [location|] eqn:Em.
    + intros [= <-] _. simpl.
      unfold message_step in Em.
      destruct (when_truthy (Some message)) as [text|] eqn:Et; [|discriminate].
      apply when_truthy_Some in Et as [[= <-] _].
      destruct (_extract_from_message message) as [l|] eqn:He; [|discriminate].
      apply when_truthy_Some in Em as [-> _].
      now apply extract_from_message_Some.
    + rewrite from_config_or_default_eq.
      destruct (config_step cls user_id); intros [= <-]; discriminate.
Qed.



(* ================================================================== *)
(** ** Where the patterns cannot match *)

Lemma search_cue_skip (cue : N) (pre s : str) :
  ~ In cue pre ->
  forall i,
    search_from (cue_pattern cue) (pre ++ s) i
    = search_from (cue_pattern cue) s (i + List.length pre).
Proof.
  induction pre as [|x pre IH]; intros Hnot i.
  - simpl. now rewrite Nat.add_0_r.
  - assert (x <> cue) as Hx by (intros ->; apply Hnot; now left).
    apply N.eqb_neq in Hx.
    cbn [app search_from cue_pattern match_at atom_match]. rewrite Hx.
    rewrite IH by (intros H; apply Hnot; now right).
    f_equal. simpl. lia.
Qed.

Lemma search_weather_skip (pre s : str) :
  Forall (fun c => is_word c = false) pre ->
  forall i,
    search_from weather_pattern (pre ++ s) i
    = search_from weather_pattern s (i + List.length pre).
Proof.
  induction pre as [|x pre IH]; intros Hall i.
  - simpl. now rewrite Nat.add_0_r.
  - apply Forall_cons_iff in Hall as [Hx Hall].
    cbn [app search_from weather_pattern match_at atom_match repeat_plus].
    rewrite Hx. rewrite IH by assumption.
    f_equal. simpl. lia.
Qed.

Lemma re_search_cue_absent (cue : N) (s : str) :
  ~ In cue s -> re_search (cue_pattern cue) s = None.
Proof.
  intros H. unfold re_search.
  rewrite <- (app_nil_r s), search_cue_skip by assumption.
  reflexivity.
Qed.

Lemma re_search_weather_no_word (s : str) :
  Forall (fun c => is_word c = false) s ->
  re_search weather_pattern s = None.
Proof.
  intros H. unfold re_search.
  rewrite <- (app_nil_r s), search_weather_skip by assumption.
  reflexivity.
Qed.

Lemma isspace_not_cue (c : N) :
  isspace c = true -> ~ In c (chr "_" :: cues).
Proof.
  intros Hc Hin. simpl in Hin.
  repeat (destruct Hin as [<- | Hin];
          [vm_compute in Hc; discriminate|]).
  exact Hin.
Qed.

(** The patterns match no message made of white space. *)
Lemma extract_from_whitespace (message : str) :
  (forall c, isspace c = true -> isalnum c = false) ->
  Forall (fun c => isspace c = true) message ->
  _extract_from_message message = Ok None.
Proof.
  intros Hdb Hws.
  assert (forall cue, In cue cues -> ~ In cue message) as Hcue.
  { intros cue Hin Hm. rewrite Forall_forall in Hws.
    apply (isspace_not_cue cue (Hws cue Hm)). now right. }
  assert (Forall (fun c => is_word c = false) message) as Hword.
  { rewrite Forall_forall in *. intros c Hin. unfold is_word.
    rewrite (Hdb c (Hws c Hin)). simpl. apply N.eqb_neq. intros ->.
    apply (isspace_not_cue (chr "_") (Hws _ Hin)). now left. }
  unfold _extract_from_message, patterns. cbn [for_pattern_in].
  rewrite !re_search_cue_absent, re_search_weather_no_word;
    try assumption; try reflexivity;
    apply Hcue; simpl; auto.
Qed.

(** C8: a message that is empty or made of white space resolves as an
    absent message does; in particular the empty message, with no stored
    location and the default "Shanghai", resolves to "Shanghai" with tier
    [FromSystemDefault].  White-space characters are not alphanumeric in
    the Unicode database. *)
Theorem whitespace_message_as_absent :
  forall (cls : WeatherConfigClass) (user_id : Z) (message : str),
    (forall c, isspace c = true -> isalnum c = false) ->
    Forall (fun c => isspace c = true) message ->
    get_location cls user_id (Some message) = get_location cls user_id None
    /\ outcome (get_location_run cls user_id (Some message))
       = outcome (get_location_run cls user_id None)
    /\ get_location (WeatherConfig (lookupReturning None)) user_id
         (Some (py "")) = Ok (py "Shanghai")
    /\ outcome (get_location_run (WeatherConfig (lookupReturning None)) user_id
                  (Some (py "")))
       = Ok {| canonicalLocation := py "Shanghai";
               sourceTier := FromSystemDefault |}.
Proof.
  intros cls user_id message Hdb Hws.
  assert (outcome (get_location_run cls user_id (Some message))
          = outcome (get_location_run cls user_id None)) as Hrun.
  { rewrite !get_location_eq. unfold message_step.
    destruct message as [|c message]; [reflexivity|].
    cbn [when_truthy truthy].
    rewrite (extract_from_whitespace (c :: message) Hdb Hws).
    cbn [when_truthy truthy]. apply outcome_from_config_or_default. }
  split; [now rewrite !get_location_of_run, Hrun|].
  split; [exact Hrun|]. split; reflexivity.
Qed.

(* ================================================================== *)
(** ** What the patterns capture *)

Lemma slice_middle (a b c : str) :
  slice (a ++ b ++ c) (List.length a) (List.length a + List.length b) = b.
Proof.
  unfold slice. rewrite skipn_app, skipn_all, Nat.sub_diag. simpl.
  replace (List.length a + List.length b - List.length a)%nat
    with (List.length b + 0)%nat by lia.
  rewrite firstn_app_2. simpl. apply app_nil_r.
Qed.

Section Ideographs.

(** The CJK unified ideographs are alphanumeric in the Unicode
    database. *)
Hypothesis ideograph_isalnum :
  forall c, 0x4E00 <= c -> c <= 0x9FA5 -> isalnum c = true.

Lemma is_word_ideograph (c : N) :
  0x4E00 <= c -> c <= 0x9FA5 -> is_word c = true.
Proof.
  intros H1 H2. unfold is_word. now rewrite ideograph_isalnum.
Qed.

End Ideographs.

(* ================================================================== *)
(** ** More on the keyword scan *)

(** X1.  The scan of a table extended at its end: entries that are appended
    never change the result of a message that the table resolved. *)
Theorem extract_location_appended :
  forall (keywords more : dict) (message : str),
    extract_location_from_message (keywords ++ more) message
    = match extract_location_from_message keywords message with
      | Some en => Some en
      | None => extract_location_from_message more message
      end.
Proof.
  intros keywords more message.
  induction keywords as [|[cn en] rest IH]; simpl; [reflexivity|].
  destruct (contains cn message); [reflexivity | exact IH].
Qed.

Lemma occurs_in_trans (a b c : str) :
  occurs_in a b -> occurs_in b c -> occurs_in a c.
Proof.
  intros (p1 & q1 & ->) (p2 & q2 & ->).
  exists (p2 ++ p1), (q1 ++ q2). now rewrite <- !app_assoc.
Qed.

(** X2.  A message in which the scan finds nothing has no part in which it
    finds something. *)
Theorem extract_location_none_in_part :
  forall (keywords : dict) (part message : str),
    occurs_in part message ->
    extract_location_from_message keywords message = None ->
    extract_location_from_message keywords part = None.
Proof.
  intros keywords part message Hpart Hnone.
  rewrite extract_location_None in *. intros cn Hin Hocc.
  apply (Hnone cn Hin). now apply (occurs_in_trans cn part message).
Qed.

Lemma occurs_in_length (sub s : str) :
  occurs_in sub s -> (List.length sub <= List.length s)%nat.
Proof.
  intros (pre & post & ->). rewrite !length_app. lia.
Qed.

(** X3.  A message shorter than every registered name resolves to nothing;
    the empty message does when no registered name is empty. *)
Theorem extract_location_short_message :
  forall (keywords : dict) (message : str),
    Forall (fun cn => (List.length message < List.length cn)%nat)
           (keys keywords) ->
    extract_location_from_message keywords message = None.
Proof.
  intros keywords message Hshort. apply extract_location_None.
  intros cn Hin Hocc. rewrite Forall_forall in Hshort.
  apply Hshort in Hin. apply occurs_in_length in Hocc. lia.
Qed.

(* ================================================================== *)
(** ** Every match of a cue pattern *)

Lemma word_run_split (s : str) :
  exists rest, s = word_run s ++ rest /\ word_ahead rest = false.
Proof.
  induction s as [|c s (rest & IH & Hrest)]; simpl.
  - now exists [].
  - destruct (is_word c) eqn:E.
    + exists rest. split; [simpl; congruence | exact Hrest].
    + exists (c :: s). split; [reflexivity | exact E].
Qed.

Lemma word_run_Forall (s : str) :
  Forall (fun c => is_word c = true) (word_run s).
Proof.
  induction s as [|c s IH]; simpl; [constructor|].
  destruct (is_word c) eqn:E; constructor; assumption.
Qed.

Lemma word_run_nonempty (s : str) :
  word_ahead s = true -> word_run s <> [].
Proof.
  destruct s as [|c s]; simpl; [discriminate|]. now intros ->.
Qed.

(** Where a greedy repetition succeeds: after a run that it took, at a
    point where the continuation accepts and no longer run does. *)
Lemma repeat_plus_inv {R} (test : N -> bool) (k : str -> nat -> option R)
    (s : str) :
  forall i r,
    repeat_plus test k s i = Some r ->
    exists run s',
      s = run ++ s' /\ run <> [] /\
      Forall (fun c => test c = true) run /\
      k s' (i + List.length run)%nat = Some r /\
      repeat_plus test k s' (i + List.length run) = None.
Proof.
  induction s as [|c s IH]; intros i r; simpl; [discriminate|].
  destruct (test c) eqn:Ec; [|discriminate].
  destruct (repeat_plus test k s (S i)) as [r'|] eqn:E.
  - intros [= <-].
    destruct (IH (S i) r' E) as (run & s' & -> & _ & Hall & Hk & Hstop).
    exists (c :: run), s'. simpl.
    replace (i + S (List.length run))%nat
      with (S i + List.length run)%nat by lia.
    repeat split; auto. discriminate.
  - intros Hk. exists [c], s. simpl.
    replace (i + 1)%nat with (S i) by lia.
    repeat split; auto. discriminate.
Qed.

(** Where a greedy repetition fails, the continuation fails after every
    run that the repetition could take. *)
Lemma repeat_plus_None_all {R} (test : N -> bool)
    (k : str -> nat -> option R) (s : str) :
  forall i,
    repeat_plus test k s i = None ->
    forall w s2,
      s = w ++ s2 -> w <> [] ->
      Forall (fun c => test c = true) w ->
      k s2 (i + List.length w)%nat = None.
Proof.
  induction s as [|c s IH]; intros i H w s2 Hs Hne Hall.
  - destruct w; [congruence | discriminate].
  - destruct w as [|c' w]; [congruence|].
    injection Hs as <- ->.
    apply Forall_cons_iff in Hall as [Hc Hall].
    simpl in H. rewrite Hc in H.
    destruct (repeat_plus test k (w ++ s2) (S i)) eqn:E; [discriminate|].
    simpl List.length.
    replace (i + S (List.length w))%nat
      with (S i + List.length w)%nat by lia.
    destruct w as [|c2 w].
    + simpl. rewrite Nat.add_0_r. exact H.
    + apply (IH (S i) E (c2 :: w) s2); auto. discriminate.
Qed.

Lemma total_tail_nil : total_tail [].
Proof. intros s j mk. simpl. eauto. Qed.

Lemma total_tail_opt (a : atom) : total_tail [Opt a].
Proof.
  intros s j mk. simpl. destruct s as [|c s]; [eauto|].
  destruct (atom_match a c); eauto.
Qed.

(** A cue pattern at one position: it matches exactly where the cue
    stands before a word character, and group 1 is the run of word
    characters there. *)
Lemma match_cue_spec (cue : N) (tail : pattern) (s : str) (i : nat) :
  total_tail tail ->
  (cue_at cue s = false /\
   match_at (cue_pattern_with cue tail) s i (None, None) = None) \/
  (exists t e,
     s = cue :: t /\ word_ahead t = true /\
     match_at (cue_pattern_with cue tail) s i (None, None)
     = Some (e, (Some (S i), Some (S i + List.length (word_run t))%nat))).
Proof.
  intros Htotal. unfold cue_pattern_with.
  destruct s as [|c t]; [left; split; reflexivity|].
  cbn [match_at atom_match cue_at fst snd].
  destruct (N.eqb_spec c cue) as [-> | Hc]; [|left; split; reflexivity].
  destruct (word_ahead t) eqn:Hw.
  - right. destruct (word_run_split t) as (rest & Ht & Hrest).
    destruct (Htotal rest (S i + List.length (word_run t))%nat
                (Some (S i), Some (S i + List.length (word_run t))%nat))
      as [e He].
    exists t, e. split; [reflexivity|]. split; [exact Hw|].
    assert (repeat_plus is_word
              (fun s' i' => match_at (GroupClose :: tail) s' i'
                              (Some (S i), None))
              (word_run t ++ rest) (S i)
            = Some (e, (Some (S i),
                        Some (S i + List.length (word_run t))%nat))) as H.
    { apply repeat_plus_run.
      - now apply word_run_nonempty.
      - apply word_run_Forall.
      - now apply repeat_plus_no_word.
      - cbn [match_at fst]. exact He. }
    now rewrite <- Ht in H.
  - left. split; [reflexivity|]. now apply repeat_plus_no_word.
Qed.

Lemma cue_at_false (cue : N) (s : str) :
  cue_at cue s = false ->
  forall rest, s = cue :: rest -> word_ahead rest = false.
Proof.
  intros H rest ->. simpl in H. now rewrite N.eqb_refl in H.
Qed.

(** A search with a cue pattern: it fails exactly when no cue stands
    before a word character, and else stops at the first cue that
    does. *)
Lemma search_cue_spec (cue : N) (tail : pattern) (s : str) :
  total_tail tail ->
  forall i,
    (search_from (cue_pattern_with cue tail) s i = None /\
     forall pre rest, s = pre ++ cue :: rest -> word_ahead rest = false) \/
    (exists pre t e,
       s = pre ++ cue :: t /\ word_ahead t = true /\
       (forall p1 p2, pre = p1 ++ cue :: p2 ->
                      word_ahead (p2 ++ cue :: t) = false) /\
       search_from (cue_pattern_with cue tail) s i
       = Some ((i + List.length pre)%nat, e,
               (Some (S (i + List.length pre)),
                Some (S (i + List.length pre)
                      + List.length (word_run t))%nat))).
Proof.
  intros Htotal. induction s as [|c s IH]; intros i.
  - left. split; [reflexivity|]. intros [|x pre] rest H; discriminate.
  - destruct (match_cue_spec cue tail (c :: s) i Htotal)
      as [[Hat Hm] | (t & e & Hs & Hw & Hm)].
    + cbn [search_from]. rewrite Hm.
      destruct (IH (S i)) as [[Hnone Hall] | (pre & t & e & -> & Hw & Hleft & Hs)].
      * left. split; [exact Hnone|].
        intros [|x pre] rest H; injection H as -> ->.
        -- now apply (cue_at_false cue (cue :: rest)).
        -- now apply (Hall pre rest).
      * right. exists (c :: pre), t, e. split; [reflexivity|].
        split; [exact Hw|]. split.
        -- intros [|x p1] p2 H; injection H as -> ->.
           ++ now apply (cue_at_false cue (cue :: p2 ++ cue :: t)).
           ++ now apply (Hleft p1 p2).
        -- rewrite Hs. simpl List.length.
           replace (S i + List.length pre)%nat
             with (i + S (List.length pre))%nat by lia.
           reflexivity.
    + right. exists [], t, e. split; [exact Hs|]. split; [exact Hw|].
      split; [intros [|x p1] p2 H; discriminate|].
      cbn [search_from]. rewrite Hm. simpl List.length.
      now rewrite Nat.add_0_r.
Qed.

Lemma cue_pattern_total (cue : N) :
  cue_pattern cue = cue_pattern_with cue [Opt (IN suffixes)].
Proof. reflexivity. Qed.

Lemma slice_after_cue (pre t : str) (cue : N) :
  slice (pre ++ cue :: t) (S (List.length pre))
    (S (List.length pre) + List.length (word_run t))
  = word_run t.
Proof.
  destruct (word_run_split t) as (rest & Ht & _).
  rewrite Ht at 1.
  change (pre ++ cue :: word_run t ++ rest)
    with (pre ++ [cue] ++ word_run t ++ rest).
  rewrite app_assoc.
  replace (S (List.length pre)) with (List.length (pre ++ [cue]))
    by (rewrite length_app; simpl; lia).
  apply slice_middle.
Qed.

(** Group 1 of a match of a cue pattern: the whole run of word characters
    after the first cue that stands before a word character. *)
Lemma cue_capture_shape (cue : N) (message : str) (m : Match) :
  re_search (cue_pattern cue) message = Some m ->
  exists pre run rest,
    message = pre ++ cue :: run ++ rest /\
    run <> [] /\
    Forall (fun c => is_word c = true) run /\
    word_ahead rest = false /\
    (forall p1 p2, pre = p1 ++ cue :: p2 ->
                   word_ahead (p2 ++ cue :: run ++ rest) = false) /\
    group1 m = Ok run.
Proof.
  unfold re_search. rewrite cue_pattern_total.
  destruct (search_cue_spec cue [Opt (IN suffixes)] message
              (total_tail_opt (IN suffixes)) 0)
    as [[-> _] | (pre & t & e & Hmsg & Hw & Hleft & ->)]; [discriminate|].
  intros [= <-].
  destruct (word_run_split t) as (rest & Ht & Hrest).
  exists pre, (word_run t), rest.
  split; [now rewrite <- Ht|].
  split; [now apply word_run_nonempty|].
  split; [apply word_run_Forall|]. split; [exact Hrest|].
  split; [now rewrite <- Ht|].
  unfold group1. cbn [m_marks m_string]. f_equal.
  rewrite Hmsg. apply slice_after_cue.
Qed.

(** X4.  Every match of a cue pattern, in any message: it starts at the first
    cue that stands before a word character, and group 1 is the whole run
    of word characters after that cue, up to the end of the message or to
    a character that is not a word character. *)
Theorem cue_match_is_first_cue_and_whole_run :
  forall (cue : N) (message : str) (m : Match),
    re_search (cue_pattern cue) message = Some m ->
    exists pre run rest,
      message = pre ++ cue :: run ++ rest /\
      run <> [] /\
      Forall (fun c => is_word c = true) run /\
      word_ahead rest = false /\
      (forall p1 p2, pre = p1 ++ cue :: p2 ->
                     word_ahead (p2 ++ cue :: run ++ rest) = false) /\
      m_start m = List.length pre /\
      group1 m = Ok run.
Proof.
  intros cue message m. unfold re_search. rewrite cue_pattern_total.
  destruct (search_cue_spec cue [Opt (IN suffixes)] message
              (total_tail_opt (IN suffixes)) 0)
    as [[-> _] | (pre & t & e & Hmsg & Hw & Hleft & ->)]; [discriminate|].
  intros [= <-]. simpl Nat.add.
  destruct (word_run_split t) as (rest & Ht & Hrest).
  exists pre, (word_run t), rest.
  split; [now rewrite <- Ht|].
  split; [now apply word_run_nonempty|].
  split; [apply word_run_Forall|]. split; [exact Hrest|].
  split; [now rewrite <- Ht|]. split; [reflexivity|].
  unfold group1. cbn [m_marks m_string]. f_equal.
  rewrite Hmsg. apply slice_after_cue.
Qed.

(** X5.  A cue pattern matches nowhere in a message exactly when every cue in
    it is followed by the end of the message or by a character that is
    not a word character. *)
Theorem cue_no_match_iff :
  forall (cue : N) (message : str),
    re_search (cue_pattern cue) message = None <->
    (forall pre rest, message = pre ++ cue :: rest ->
                      word_ahead rest = false).
Proof.
  intros cue message. unfold re_search. rewrite cue_pattern_total.
  destruct (search_cue_spec cue [Opt (IN suffixes)] message
              (total_tail_opt (IN suffixes)) 0)
    as [[-> Hall] | (pre & t & e & Hmsg & Hw & _ & ->)].
  - split; [intros _; exact Hall | reflexivity].
  - split; [discriminate|]. intros Hall.
    rewrite (Hall pre t Hmsg) in Hw. discriminate.
Qed.

Lemma search_cue_tail_irrelevant (cue : N) (tail tail' : pattern) (s : str) :
  total_tail tail -> total_tail tail' ->
  forall i,
    option_map (fun r => (fst (fst r), snd r))
      (search_from (cue_pattern_with cue tail) s i)
    = option_map (fun r => (fst (fst r), snd r))
        (search_from (cue_pattern_with cue tail') s i).
Proof.
  intros Ht Ht'. induction s as [|c s IH]; intros i.
  - reflexivity.
  - cbn [search_from].
    destruct (match_cue_spec cue tail (c :: s) i Ht)
      as [[Hat ->] | (t & e & Hs & Hw & ->)];
    destruct (match_cue_spec cue tail' (c :: s) i Ht')
      as [[Hat' ->] | (t' & e' & Hs' & Hw' & ->)].
    + apply IH.
    + rewrite Hs' in Hat. simpl in Hat.
      rewrite N.eqb_refl, Hw' in Hat. discriminate.
    + rewrite Hs in Hat'. simpl in Hat'.
      rewrite N.eqb_refl, Hw in Hat'. discriminate.
    + assert (t' = t) as -> by congruence. reflexivity.
Qed.

(** X6.  The optional suffix [市区县] of a cue pattern never takes anything
    off group 1: the pattern finds the same start and the same group 1
    as the pattern without the suffix. *)
Theorem cue_suffix_never_stripped :
  forall (cue : N) (message : str),
    start_and_group (re_search (cue_pattern cue) message)
    = start_and_group
        (re_search [One (LITERAL cue); GroupOpen; Plus CATEGORY_WORD;
                    GroupClose] message).
Proof.
  intros cue message. unfold start_and_group, re_search, group1.
  pose proof (search_cue_tail_irrelevant cue [Opt (IN suffixes)] []
                message (total_tail_opt (IN suffixes)) total_tail_nil 0)
    as H.
  rewrite cue_pattern_total.
  change [One (LITERAL cue); GroupOpen; Plus CATEGORY_WORD; GroupClose]
    with (cue_pattern_with cue []).
  revert H.
  destruct (search_from (cue_pattern_with cue [Opt (IN suffixes)]) message 0)
    as [[[b e] mk]|];
  destruct (search_from (cue_pattern_with cue []) message 0)
    as [[[b' e'] mk']|]; simpl; intros H; try congruence.
  injection H as -> ->. reflexivity.
Qed.

(* ================================================================== *)
(** ** Every match of the weather pattern *)

Lemma match_opt_inv (a : atom) (p : pattern) (s : str) (j : nat)
    (mk : marks) (r : nat * marks) :
  match_at (Opt a :: p) s j mk = Some r ->
  match_at p s j mk = Some r \/
  exists c s', s = c :: s' /\ atom_match a c = true /\
               match_at p s' (S j) mk = Some r.
Proof.
  cbn [match_at]. destruct s as [|c s']; [now left|].
  destruct (atom_match a c) eqn:Ea; [|now left].
  destruct (match_at p s' (S j) mk) as [r'|] eqn:E; [|now left].
  intros [= <-]. right. now exists c, s'.
Qed.

Lemma match_opt_skip (a : atom) (p : pattern) (s : str) (j : nat)
    (mk : marks) :
  match_at p s j mk <> None -> match_at (Opt a :: p) s j mk <> None.
Proof.
  cbn [match_at]. intros H. destruct s as [|c s']; [exact H|].
  destruct (atom_match a c); [|exact H].
  destruct (match_at p s' (S j) mk); [discriminate | exact H].
Qed.

Lemma match_opt_take (a : atom) (p : pattern) (c : N) (s : str) (j : nat)
    (mk : marks) :
  atom_match a c = true ->
  match_at p s (S j) mk <> None ->
  match_at (Opt a :: p) (c :: s) j mk <> None.
Proof.
  cbn [match_at]. intros -> H.
  destruct (match_at p s (S j) mk); [discriminate | congruence].
Qed.

(** Whether a pattern matches does not depend on the position counted
    nor on the marks carried. *)
Lemma repeat_plus_None_indep {R} (test : N -> bool)
    (k k' : str -> nat -> option R) :
  (forall s i i', k s i = None -> k' s i' = None) ->
  forall s i i',
    repeat_plus test k s i = None -> repeat_plus test k' s i' = None.
Proof.
  intros Hk. induction s as [|c s IH]; intros i i'; simpl; [reflexivity|].
  destruct (test c); [|reflexivity].
  destruct (repeat_plus test k s (S i)) eqn:E; [discriminate|].
  intros H. rewrite (IH (S i) (S i') E). now apply (Hk s (S i)).
Qed.

Lemma match_at_None_indep (p : pattern) :
  forall s i mk i' mk',
    match_at p s i mk = None -> match_at p s i' mk' = None.
Proof.
  induction p as [|o p IH]; intros s i mk i' mk'; [discriminate|].
  destruct o as [a | a | a | |]; cbn [match_at].
  - destruct s as [|c s]; [reflexivity|].
    destruct (atom_match a c); [apply IH | reflexivity].
  - destruct s as [|c s]; [apply IH|].
    destruct (atom_match a c); [|apply IH].
    destruct (match_at p s (S i) mk) eqn:E; [discriminate|].
    intros H. rewrite (IH s (S i) mk (S i') mk' E). now apply (IH _ i mk).
  - apply repeat_plus_None_indep. intros s0 j j'. apply IH.
  - apply IH.
  - apply IH.
Qed.

(** Where a search stops: at the first position where the pattern
    matches. *)
Lemma search_from_inv (p : pattern) (s : str) :
  forall i b e mk,
    search_from p s i = Some (b, e, mk) ->
    exists pre s',
      s = pre ++ s' /\ b = (i + List.length pre)%nat /\
      match_at p s' b (None, None) = Some (e, mk) /\
      forall p1 c p2, pre = p1 ++ c :: p2 ->
        match_at p (c :: p2 ++ s') (i + List.length p1) (None, None) = None.
Proof.
  induction s as [|c s IH]; intros i b e mk; cbn [search_from];
    destruct (match_at p _ i (None, None)) as [[e' mk']|] eqn:E.
  - intros [= <- <- <-]. exists [], []. rewrite Nat.add_0_r.
    repeat split; auto. intros [|x p1] y p2 H; discriminate.
  - discriminate.
  - intros [= <- <- <-]. exists [], (c :: s). rewrite Nat.add_0_r.
    repeat split; auto. intros [|x p1] y p2 H; discriminate.
  - intros H. destruct (IH (S i) b e mk H) as (pre & s' & -> & -> & Hm & Hleft).
    exists (c :: pre), s'. simpl List.length.
    replace (i + S (List.length pre))%nat
      with (S i + List.length pre)%nat by lia.
    repeat split; auto.
    intros [|x p1] y p2 Hpre; injection Hpre as -> ->.
    + simpl. rewrite Nat.add_0_r. exact E.
    + simpl List.length.
      replace (i + S (List.length p1))%nat
        with (S i + List.length p1)%nat by lia.
      now apply Hleft.
Qed.

Lemma match_group_close (p : pattern) (s : str) (j : nat) (mk : marks) :
  match_at (GroupClose :: p) s j mk = match_at p s j (fst mk, Some j).
Proof. reflexivity. Qed.

Lemma weather_tail_eq :
  skipn 2 weather_pattern
  = [ GroupClose; Opt (IN suffixes); Opt (LITERAL (chr "的"));
      One (LITERAL (chr "天")); One (LITERAL (chr "气")) ].
Proof. reflexivity. Qed.

Lemma weather_end_inv (s : str) (j e : nat) (mk mk' : marks) :
  match_at [One (LITERAL (chr "天")); One (LITERAL (chr "气"))] s j mk
  = Some (e, mk') ->
  exists rest,
    s = chr "天" :: chr "气" :: rest /\ e = S (S j) /\ mk' = mk.
Proof.
  cbn [match_at atom_match].
  destruct s as [|c1 [|c2 rest]]; try discriminate.
  - destruct (c1 =? chr "天"); discriminate.
  - destruct (N.eqb_spec c1 (chr "天")) as [-> |]; [|discriminate].
    destruct (N.eqb_spec c2 (chr "气")) as [-> |]; [|discriminate].
    intros [= <- <-]. now exists rest.
Qed.

Lemma weather_tail_some (rest : str) (j : nat) (mk : marks) :
  match_at (skipn 2 weather_pattern) (chr "天" :: chr "气" :: rest) j mk
  <> None /\
  match_at (skipn 2 weather_pattern)
    (chr "的" :: chr "天" :: chr "气" :: rest) j mk <> None.
Proof.
  rewrite weather_tail_eq, !match_group_close. split.
  - do 2 apply match_opt_skip.
    cbn [match_at atom_match]. rewrite !N.eqb_refl. discriminate.
  - apply match_opt_skip. apply match_opt_take.
    + cbn [atom_match]. apply N.eqb_refl.
    + cbn [match_at atom_match]. rewrite !N.eqb_refl. discriminate.
Qed.

(** Where the rest of the weather pattern, after group 1, matches: at
    天气, after at most one of 市区县 and at most one 的; taking one of
    these characters less, it matches as well. *)
Lemma weather_tail_inv (s : str) (j e : nat) (mk mk' : marks) :
  match_at (skipn 2 weather_pattern) s j mk = Some (e, mk') ->
  mk' = (fst mk, Some j) /\
  exists opt rest,
    s = opt ++ chr "天" :: chr "气" :: rest /\
    e = (j + List.length opt + 2)%nat /\
    Forall (fun c => In c (chr "的" :: suffixes)) opt /\
    forall c opt' j0 mk0,
      opt = c :: opt' ->
      match_at (skipn 2 weather_pattern)
        (opt' ++ chr "天" :: chr "气" :: rest) j0 mk0 <> None.
Proof.
  rewrite weather_tail_eq, match_group_close. intros H.
  assert (forall c, existsb (N.eqb c) suffixes = true -> In c suffixes)
    as Hin.
  { intros c Hc. apply existsb_exists in Hc as (x & Hx & Hcx).
    apply N.eqb_eq in Hcx. now subst. }
  apply match_opt_inv in H as [H | (c1 & s1 & -> & Hc1 & H)];
    apply match_opt_inv in H as [H | (c2 & s2 & -> & Hc2 & H)];
    apply weather_end_inv in H as (rest & -> & -> & ->);
    (split; [reflexivity|]).
  - exists [], rest. repeat split; try constructor; try (simpl; lia).
    intros; discriminate.
  - simpl in Hc2. apply N.eqb_eq in Hc2 as ->.
    exists [chr "的"], rest.
    repeat split; try (simpl; lia).
    + repeat constructor.
    + intros c opt' j0 mk0 [= <- <-]. rewrite <- weather_tail_eq.
      apply weather_tail_some.
  - simpl in Hc1. apply Hin in Hc1.
    exists [c1], rest. repeat split; try (simpl; lia).
    + constructor; [now right | constructor].
    + intros c opt' j0 mk0 [= <- <-]. rewrite <- weather_tail_eq.
      apply weather_tail_some.
  - simpl in Hc1, Hc2. apply Hin in Hc1. apply N.eqb_eq in Hc2 as ->.
    exists [c1; chr "的"], rest. repeat split; try (simpl; lia).
    + constructor; [now right | repeat constructor].
    + intros c opt' j0 mk0 [= <- <-]. rewrite <- weather_tail_eq.
      apply weather_tail_some.
Qed.

(** The weather pattern at one position, on any Unicode table: group 1
    is a run of word characters that starts there, and 天气 follows it
    after at most two characters; the group is the longest one that the
    rest of the pattern accepts: after no longer run of word characters
    does the rest of the pattern match. *)
Lemma match_weather_greedy (s : str) (i e : nat) (mk : marks) :
  match_at weather_pattern s i (None, None) = Some (e, mk) ->
  exists run opt rest,
    s = run ++ opt ++ chr "天" :: chr "气" :: rest /\
    run <> [] /\
    Forall (fun c => is_word c = true) run /\
    mk = (Some i, Some (i + List.length run)%nat) /\
    e = (i + List.length run + List.length opt + 2)%nat /\
    Forall (fun c => In c (chr "的" :: suffixes)) opt /\
    (forall c opt', opt = c :: opt' -> is_word c = false) /\
    (forall w s2 j mk0,
       opt ++ chr "天" :: chr "气" :: rest = w ++ s2 ->
       w <> [] ->
       Forall (fun c => is_word c = true) w ->
       match_at (skipn 2 weather_pattern) s2 j mk0 = None).
Proof.
  change weather_pattern
    with (GroupOpen :: Plus CATEGORY_WORD :: skipn 2 weather_pattern).
  cbn [match_at atom_match fst snd]. intros H.
  apply repeat_plus_inv in H as (run & s' & -> & Hne & Hall & Hk & Hstop).
  apply weather_tail_inv in Hk
    as (-> & opt & rest & -> & -> & Hopt & Hless).
  exists run, opt, rest.
  do 6 (split; [solve [auto]|]). split.
  - intros c opt' ->. destruct (is_word c) eqn:Ec; [exfalso | reflexivity].
    cbn [app repeat_plus atom_match] in Hstop. rewrite Ec in Hstop.
    destruct (repeat_plus _ _ _ _) in Hstop; [discriminate|].
    now apply (Hless c opt' (S (i + List.length run)) (Some i, None))
      in Hstop.
  - intros w s2 j mk0 Hsplit Hw Hallw.
    apply (repeat_plus_None_all _ _ _ _ Hstop w s2 Hsplit Hw) in Hallw.
    revert Hallw. apply match_at_None_indep.
Qed.

Lemma match_weather_inv (s : str) (i e : nat) (mk : marks) :
  match_at weather_pattern s i (None, None) = Some (e, mk) ->
  exists run opt rest,
    s = run ++ opt ++ chr "天" :: chr "气" :: rest /\
    run <> [] /\
    Forall (fun c => is_word c = true) run /\
    mk = (Some i, Some (i + List.length run)%nat) /\
    e = (i + List.length run + List.length opt + 2)%nat /\
    Forall (fun c => In c (chr "的" :: suffixes)) opt /\
    (forall c opt', opt = c :: opt' -> is_word c = false).
Proof.
  intros H. apply match_weather_greedy in H
    as (run & opt & rest & H1 & H2 & H3 & H4 & H5 & H6 & H7 & _).
  exists run, opt, rest. auto 10.
Qed.

Lemma slice_from (pre run rest : str) :
  slice (pre ++ run ++ rest) (List.length pre)
    (List.length pre + List.length run) = run.
Proof. apply slice_middle. Qed.

(** Every match of the weather pattern, on any Unicode table: it starts
    where a run of word characters starts, and group 1 is a run of word
    characters from there; the rest of the pattern matches after no
    longer run of word characters, and after no run of word characters
    that starts further left. *)
Lemma weather_match_greedy (message : str) (m : Match) :
  re_search weather_pattern message = Some m ->
  exists pre run opt rest,
    message = pre ++ run ++ opt ++ chr "天" :: chr "气" :: rest /\
    run <> [] /\
    Forall (fun c => is_word c = true) run /\
    (forall pre' c, pre = pre' ++ [c] -> is_word c = false) /\
    (forall c opt', opt = c :: opt' -> is_word c = false) /\
    Forall (fun c => In c (chr "的" :: suffixes)) opt /\
    m_start m = List.length pre /\
    m_end m = (List.length pre + List.length run + List.length opt + 2)%nat /\
    group1 m = Ok run /\
    (forall w s2 j mk0,
       opt ++ chr "天" :: chr "气" :: rest = w ++ s2 ->
       w <> [] ->
       Forall (fun c => is_word c = true) w ->
       match_at (skipn 2 weather_pattern) s2 j mk0 = None) /\
    (forall p1 c p2 w s2 j mk0,
       pre = p1 ++ c :: p2 ->
       c :: p2 ++ run ++ opt ++ chr "天" :: chr "气" :: rest = w ++ s2 ->
       w <> [] ->
       Forall (fun c => is_word c = true) w ->
       match_at (skipn 2 weather_pattern) s2 j mk0 = None).
Proof.
  unfold re_search.
  destruct (search_from weather_pattern message 0) as [[[b e] mk]|] eqn:E;
    [|discriminate].
  intros [= <-].
  apply search_from_inv in E as (pre & s' & Hmsg & -> & Hm & Hleft).
  simpl Nat.add in *.
  pose proof Hm as Hm'.
  apply match_weather_greedy in Hm'
    as (run & opt & rest & -> & Hne & Hall & -> & -> & Hopt & Hw & Hlast).
  exists pre, run, opt, rest. cbn [m_start m_end].
  do 3 (split; [solve [auto]|]). split; [|do 4 (split; [solve [auto]|])].
  - intros pre' c ->. destruct (is_word c) eqn:Ec; [exfalso | reflexivity].
    specialize (Hleft pre' c [] eq_refl). simpl app in Hleft.
    revert Hleft Hm.
    change weather_pattern
      with (GroupOpen :: Plus CATEGORY_WORD :: skipn 2 weather_pattern).
    cbn [match_at atom_match fst snd repeat_plus]. rewrite Ec.
    destruct (repeat_plus _ _ _ (S (List.length pre'))) eqn:E1;
      [discriminate|].
    intros _ Hm.
    eapply repeat_plus_None_indep in E1;
      [rewrite E1 in Hm; discriminate|].
    intros s0 j j'. apply match_at_None_indep.
  - split; [|split; [exact Hlast|]].
    + unfold group1. cbn [m_marks m_string]. f_equal.
      rewrite Hmsg. apply slice_from.
    + intros p1 c p2 w s2 j mk0 Hpre Hsplit Hne' Hallw.
      specialize (Hleft p1 c p2 Hpre). revert Hleft.
      change weather_pattern
        with (GroupOpen :: Plus CATEGORY_WORD :: skipn 2 weather_pattern).
      cbn [match_at atom_match fst snd]. intros Hleft.
      apply (repeat_plus_None_all _ _ _ _ Hleft w s2 Hsplit Hne') in Hallw.
      revert Hallw. apply match_at_None_indep.
Qed.

Lemma weather_match_any_table (message : str) (m : Match) :
  re_search weather_pattern message = Some m ->
  exists pre run opt rest,
    message = pre ++ run ++ opt ++ chr "天" :: chr "气" :: rest /\
    run <> [] /\
    Forall (fun c => is_word c = true) run /\
    (forall pre' c, pre = pre' ++ [c] -> is_word c = false) /\
    (forall c opt', opt = c :: opt' -> is_word c = false) /\
    Forall (fun c => In c (chr "的" :: suffixes)) opt /\
    m_start m = List.length pre /\
    m_end m = (List.length pre + List.length run + List.length opt + 2)%nat /\
    group1 m = Ok run.
Proof.
  intros H. apply weather_match_greedy in H
    as (pre & run & opt & rest
        & H1 & H2 & H3 & H4 & H5 & H6 & H7 & H8 & H9 & _).
  exists pre, run, opt, rest. auto 12.
Qed.

(** What it means for 天气 that the rest of the weather pattern matches
    after no run of word characters of [s]: 天气 does not occur among
    the word characters that follow such a run. *)
Lemma no_weather_after_run (s : str) :
  (forall w s2 j mk0,
     s = w ++ s2 -> w <> [] ->
     Forall (fun c => is_word c = true) w ->
     match_at (skipn 2 weather_pattern) s2 j mk0 = None) ->
  forall w t,
    s = w ++ t -> w <> [] ->
    Forall (fun c => is_word c = true) w ->
    ~ occurs_in [chr "天"; chr "气"] (word_run t).
Proof.
  intros H w t Hs Hne Hall (a & b & Hocc).
  destruct (word_run_split t) as (r & Ht & _).
  pose proof (word_run_Forall t) as Hrun. rewrite Hocc in Hrun.
  apply Forall_app in Hrun as [Ha _].
  assert (s = (w ++ a) ++ chr "天" :: chr "气" :: b ++ r) as Hs'.
  { rewrite Hs, Ht, Hocc. now rewrite <- !app_assoc. }
  assert (w ++ a <> []) as Hne' by (destruct w; [congruence | discriminate]).
  assert (Forall (fun c => is_word c = true) (w ++ a)) as Hall'
    by (apply Forall_app; auto).
  specialize (H _ _ 0%nat (None, None) Hs' Hne' Hall').
  now apply (proj1 (weather_tail_some (b ++ r) 0%nat (None, None))).
Qed.

(** The weather pattern matches only a message in which 天气 occurs. *)
Lemma weather_match_occurs (message : str) (m : Match) :
  re_search weather_pattern message = Some m ->
  occurs_in [chr "天"; chr "气"] message.
Proof.
  intros H.
  apply weather_match_any_table in H
    as (pre & run & opt & rest & -> & _).
  exists (pre ++ run ++ opt), rest. now rewrite <- !app_assoc.
Qed.

Section IdeographMatches.

Hypothesis ideograph_isalnum :
  forall c, 0x4E00 <= c -> c <= 0x9FA5 -> isalnum c = true.

Lemma is_word_suffix_or_particle (c : N) :
  In c (chr "的" :: suffixes) -> is_word c = true.
Proof.
  unfold suffixes. simpl.
  intros [<- | [<- | [<- | [<- | []]]]];
    apply (is_word_ideograph ideograph_isalnum); vm_compute; discriminate.
Qed.

(** X7.  Every match of the weather pattern, in any message: group 1 is a run
    of word characters that begins where the run begins and goes right
    up to 天气, where the match ends; the optional 市区县 and 的 of the
    pattern match nothing, so that the group keeps them: from X市天气 and
    X的天气 it takes X市 and X的. *)
Theorem weather_match_runs_up_to_weather :
  forall (message : str) (m : Match),
    re_search weather_pattern message = Some m ->
    exists pre run rest,
      message = pre ++ run ++ chr "天" :: chr "气" :: rest /\
      run <> [] /\
      Forall (fun c => is_word c = true) run /\
      (forall pre' c, pre = pre' ++ [c] -> is_word c = false) /\
      m_start m = List.length pre /\
      m_end m = (List.length pre + List.length run + 2)%nat /\
      group1 m = Ok run.
Proof.
  intros message m H.
  apply weather_match_any_table in H
    as (pre & run & opt & rest & Hmsg & Hne & Hall & Hleft & Hw & Hopt
        & Hs & He & Hg).
  destruct opt as [|c opt'].
  - exists pre, run, rest. simpl in *. rewrite Nat.add_0_r in He.
    repeat split; auto.
  - exfalso.
    apply Forall_cons_iff in Hopt as [Hc _].
    apply is_word_suffix_or_particle in Hc.
    rewrite (Hw c opt' eq_refl) in Hc. discriminate.
Qed.

End IdeographMatches.

(* ================================================================== *)
(** ** What the patterns can find *)

Lemma In_patterns (p : pattern) :
  In p patterns ->
  (exists cue, In cue cues /\ p = cue_pattern cue) \/ p = weather_pattern.
Proof.
  unfold patterns, cues. simpl.
  intros [<- | [<- | [<- | [<- | []]]]]; eauto 10.
Qed.

(** Group 1 of a match of one of the patterns is a run of word
    characters of the message, and not empty. *)
Lemma pattern_capture_is_word_run (p : pattern) (message : str) (m : Match) :
  In p patterns ->
  re_search p message = Some m ->
  exists key,
    group1 m = Ok key /\ key <> [] /\
    Forall (fun c => is_word c = true) key /\
    occurs_in key message.
Proof.
  intros Hin Hm. apply In_patterns in Hin as [(cue & _ & ->) | ->].
  - apply cue_capture_shape in Hm
      as (pre & run & rest & -> & Hne & Hall & _ & _ & Hg).
    exists run. repeat split; auto.
    exists (pre ++ [cue]), rest. now rewrite <- app_assoc.
  - apply weather_match_any_table in Hm
      as (pre & run & opt & rest & -> & Hne & Hall & _ & _ & _ & _ & _ & Hg).
    exists run. repeat split; auto.
    now exists pre, (opt ++ chr "天" :: chr "气" :: rest).
Qed.

(** X8.  A location that the patterns yield is the city map's entry for a key
    that occurs in the message, is not empty and is made of word
    characters only: an entry whose key is empty or has another character
    in it (a space, a hyphen, a dot) is out of the patterns' reach. *)
Theorem extracted_location_has_word_key :
  forall (message location : str),
    _extract_from_message message = Ok (Some location) ->
    exists key,
      key <> [] /\
      Forall (fun c => is_word c = true) key /\
      occurs_in key message /\
      dict_get CITY_MAP key = Some location.
Proof.
  intros message location H.
  apply extract_from_message_Some in H
    as (p & m & city_cn & (before & after & Hps & _ & Hm) & Hg & Hget).
  assert (In p patterns) as Hin by (rewrite Hps; apply in_elt).
  destruct (pattern_capture_is_word_run p message m Hin Hm)
    as (key & Hg' & Hne & Hall & Hocc).
  exists key. assert (key = city_cn) as -> by congruence. auto.
Qed.

Lemma get_location_nothing_extracted (cls : WeatherConfigClass)
    (user_id : Z) (message : str) :
  _extract_from_message message = Ok None ->
  get_location cls user_id (Some message) = get_location cls user_id None.
Proof.
  intros H. unfold get_location.
  destruct message as [|c message]; [reflexivity|].
  cbn [when_truthy truthy]. now rewrite H.
Qed.

(** X9.  A message with none of the cues 在, 去, 到 and without 天气 is
    resolved as an absent message is, whatever names it mentions. *)
Theorem message_without_cue_falls_through :
  forall (message : str),
    (forall cue, In cue cues -> ~ In cue message) ->
    ~ occurs_in [chr "天"; chr "气"] message ->
    _extract_from_message message = Ok None /\
    forall cls user_id,
      get_location cls user_id (Some message) = get_location cls user_id None.
Proof.
  intros message Hcue Hweather.
  assert (_extract_from_message message = Ok None) as He.
  { unfold _extract_from_message, patterns. cbn [for_pattern_in].
    rewrite !re_search_cue_absent by (apply Hcue; unfold cues; simpl; auto).
    destruct (re_search weather_pattern message) as [m|] eqn:E;
      [|reflexivity].
    exfalso. apply Hweather. now apply (weather_match_occurs message m). }
  split; [exact He|]. intros cls user_id.
  now apply get_location_nothing_extracted.
Qed.

(* ================================================================== *)
(** ** The capture of the pattern that decides *)

Section IdeographCaptures.

Hypothesis ideograph_isalnum :
  forall c, 0x4E00 <= c -> c <= 0x9FA5 -> isalnum c = true.

(** C10, as the code has it: the pattern that decides is the first pattern
    that matches, and its group 1 is a maximal greedy run of word
    characters next to the cue.  For a cue pattern the run is the whole
    run of word characters after the first cue that stands before a word
    character.  For the weather pattern the run starts at the first word
    character that has 天气 among the word characters that follow it
    without a break, which is where a run of word characters starts, and
    it goes up to the last 天气 among them.  The extraction yields what
    the city map has for that run: nothing when the run is not a key, as
    when the run is a registered name with further word characters after
    or before it and no registered name is longer than that name. *)
Theorem greedy_capture_is_whole_run :
  forall (message : str) (p : pattern) (m : Match),
    first_match message p m ->
    exists run,
      group1 m = Ok run /\
      run <> [] /\
      Forall (fun c => is_word c = true) run /\
      ((exists cue pre rest,
          p = cue_pattern cue /\
          message = pre ++ cue :: run ++ rest /\
          word_ahead rest = false /\
          (forall p1 p2, pre = p1 ++ cue :: p2 ->
                         word_ahead (p2 ++ cue :: run ++ rest) = false))
       \/
       (exists pre rest,
          p = weather_pattern /\
          message = pre ++ run ++ chr "天" :: chr "气" :: rest /\
          (forall pre' c, pre = pre' ++ [c] -> is_word c = false) /\
          ~ occurs_in [chr "天"; chr "气"] (word_run rest) /\
          (forall p1 c p2,
             pre = p1 ++ c :: p2 -> is_word c = true ->
             ~ occurs_in [chr "天"; chr "气"]
                 (word_run (p2 ++ run ++ chr "天" :: chr "气" :: rest)))))
      /\ _extract_from_message message = Ok (dict_get CITY_MAP run)
      /\ (~ In run (keys CITY_MAP) ->
          _extract_from_message message = Ok None)
      /\ (forall name extra,
            In name (keys CITY_MAP) ->
            extra <> [] ->
            run = name ++ extra \/ run = extra ++ name ->
            (forall key, In key (keys CITY_MAP) ->
                         (List.length key <= List.length name)%nat) ->
            _extract_from_message message = Ok None).
Proof.
  intros message p m Hfm.
  destruct (first_match_extract message p m Hfm) as (run & Hg & He).
  destruct Hfm as (before & after & Hps & _ & Hm).
  assert (In p patterns) as Hin by (rewrite Hps; apply in_elt).
  assert (~ In run (keys CITY_MAP) -> _extract_from_message message = Ok None)
    as Hmiss.
  { intros Hk. apply dict_get_None in Hk. now rewrite He, Hk. }
  assert (forall name extra,
            In name (keys CITY_MAP) ->
            extra <> [] ->
            run = name ++ extra \/ run = extra ++ name ->
            (forall key, In key (keys CITY_MAP) ->
                         (List.length key <= List.length name)%nat) ->
            _extract_from_message message = Ok None) as Hlonger.
  { intros name extra Hname Hextra Hshape Hlen. apply Hmiss. intros Hk.
    apply Hlen in Hk.
    assert (List.length extra <> 0%nat) as Hex
      by (destruct extra; [congruence | discriminate]).
    destruct Hshape as [-> | ->]; rewrite length_app in Hk; lia. }
  exists run. split; [exact Hg|].
  apply In_patterns in Hin as [(cue & _ & ->) | ->].
  - apply cue_capture_shape in Hm
      as (pre & run' & rest & Hmsg & Hne & Hall & Hrest & Hleft & Hg').
    assert (run' = run) as -> by congruence.
    split; [exact Hne|]. split; [exact Hall|].
    split; [|split; [exact He|split; [exact Hmiss | exact Hlonger]]].
    left. exists cue, pre, rest. auto.
  - apply weather_match_greedy in Hm
      as (pre & run' & opt & rest & Hmsg & Hne & Hall & Hpre & Hw & Hopt
          & _ & _ & Hg' & Hlast & Hleftmost).
    assert (run' = run) as -> by congruence.
    assert (opt = []) as ->.
    { destruct opt as [|c opt']; [reflexivity | exfalso].
      apply Forall_cons_iff in Hopt as [Hc _].
      apply (is_word_suffix_or_particle ideograph_isalnum) in Hc.
      rewrite (Hw c opt' eq_refl) in Hc. discriminate. }
    simpl app in *.
    split; [exact Hne|]. split; [exact Hall|].
    split; [|split; [exact He|split; [exact Hmiss | exact Hlonger]]].
    right. exists pre, rest.
    split; [reflexivity|]. split; [exact Hmsg|]. split; [exact Hpre|].
    split.
    + apply (no_weather_after_run _ Hlast [chr "天"; chr "气"] rest);
        [reflexivity | discriminate|].
      repeat constructor;
        apply (is_word_ideograph ideograph_isalnum); vm_compute;
        discriminate.
    + intros p1 c p2 Hp1 Hc.
      apply (no_weather_after_run _
               (fun w s2 j mk0 => Hleftmost p1 c p2 w s2 j mk0 Hp1) [c]);
        [reflexivity | discriminate|].
      now constructor.
Qed.

End IdeographCaptures.

End Resolver.

(* ================================================================== *)
(** ** The note's messages *)

Example py_code_points : py "北京a_" = [0x5317; 0x4EAC; 0x61; 0x5F].
Proof. reflexivity. Qed.

Example extract_after_cue :
  _extract_from_message isalnum_cjk Note.CITY_MAP (py "在北京")
  = Ok (Some (py "Beijing")).
Proof. reflexivity. Qed.

Example extract_before_weather :
  _extract_from_message isalnum_cjk Note.CITY_MAP (py "，北京天气不错")
  = Ok (Some (py "Beijing")).
Proof. reflexivity. Qed.

(** In 北京的天气 the greedy group takes 的 as well. *)
Example weather_group_takes_particle :
  option_map group1 (re_search isalnum_cjk weather_pattern (py "北京的天气"))
  = Some (Ok (py "北京的")).
Proof. reflexivity. Qed.

(** The second example of the note's section 7: 今天在家休息, with 杭州
    stored, uses the stored location. *)
Example at_home_uses_stored_location :
  get_location_run isalnum_cjk Note.CITY_MAP
    (WeatherConfig (lookupReturning (Some (py "杭州")))) 7
    (Some (py "今天在家休息"))
  = {| attempted := [FromMessage; FromUserConfig];
       outcome := Ok {| canonicalLocation := py "杭州";
                        sourceTier := FromUserConfig |} |}.
Proof. reflexivity. Qed.

Lemma isalnum_cjk_ideograph (c : N) :
  0x4E00 <= c -> c <= 0x9FA5 -> isalnum_cjk c = true.
Proof.
  intros H1 H2. unfold isalnum_cjk.
  apply N.leb_le in H1, H2. rewrite H1, H2. apply orb_true_r.
Qed.

Lemma isspace_not_isalnum_cjk (c : N) :
  isspace c = true -> isalnum_cjk c = false.
Proof.
  intros H. destruct (isalnum_cjk c) eqn:E; [exfalso | reflexivity].
  unfold isspace in H. unfold isalnum_cjk in E.
  rewrite ?orb_true_iff, ?andb_true_iff, ?N.leb_le, ?N.eqb_eq in H.
  rewrite ?orb_true_iff, ?andb_true_iff, ?N.leb_le in E.
  lia.
Qed.

Lemma get_location_three_tiers_witness :
  get_location_run isalnum_cjk Note.CITY_MAP
    (WeatherConfig (lookupReturning (Some (py "Hangzhou")))) 7 None
  = {| attempted := [FromUserConfig];
       outcome := Ok {| canonicalLocation := py "Hangzhou";
                        sourceTier := FromUserConfig |} |}.
Proof.
  exact (proj1 (get_location_three_tiers isalnum_cjk Note.CITY_MAP
                  (WeatherConfig (lookupReturning (Some (py "Hangzhou"))))
                  7 None)).
Defined.

Lemma get_location_never_raises_witness :
  exists r,
    outcome (get_location_run isalnum_cjk Note.CITY_MAP
               (WeatherConfig (lookupReturning None)) 7
               (Some (py "今天在家休息"))) = Ok r /\
    r = {| canonicalLocation := py "Shanghai";
           sourceTier := FromSystemDefault |}.
Proof.
  destruct (get_location_never_raises isalnum_cjk Note.CITY_MAP
              (WeatherConfig (lookupReturning None)) 7
              (Some (py "今天在家休息")))
    as (_ & (r & Hr & _ & Hdefault) & _).
  exists r. split; [exact Hr|].
  apply Hdefault; reflexivity.
Defined.

Lemma unrecognized_capture_discarded_witness :
  _extract_from_message isalnum_cjk Note.CITY_MAP (py "在北京玩") = Ok None.
Proof.
  refine (proj1 (proj1 (unrecognized_capture_discarded isalnum_cjk
                          Note.CITY_MAP (py "在北京玩"))
                   (cue_pattern (chr "在"))
                   {| m_string := py "在北京玩"; m_start := 0; m_end := 4;
                      m_marks := (Some 1%nat, Some 4%nat) |}
                   (py "北京玩") _ _ _)).
  - exists [], [cue_pattern (chr "去"); cue_pattern (chr "到"); weather_pattern].
    split; [reflexivity|]. split; [intros q []|reflexivity].
  - reflexivity.
  - reflexivity.
Defined.



Lemma whitespace_message_as_absent_witness :
  get_location isalnum_cjk Note.CITY_MAP
    (WeatherConfig (lookupReturning (Some (py "Hangzhou")))) 7
    (Some (py "   "))
  = get_location isalnum_cjk Note.CITY_MAP
      (WeatherConfig (lookupReturning (Some (py "Hangzhou")))) 7 None.
Proof.
  refine (proj1 (whitespace_message_as_absent isalnum_cjk Note.CITY_MAP
                   (WeatherConfig (lookupReturning (Some (py "Hangzhou"))))
                   7 (py "   ") isspace_not_isalnum_cjk _)).
  vm_compute. repeat constructor.
Defined.

Lemma greedy_capture_is_whole_run_witness :
  _extract_from_message isalnum_cjk Note.CITY_MAP (py "在北京玩") = Ok None /\
  _extract_from_message isalnum_cjk Note.CITY_MAP (py "今天北京天气不错")
    = Ok None.
Proof.
  split.
  - destruct (greedy_capture_is_whole_run isalnum_cjk Note.CITY_MAP
                isalnum_cjk_ideograph (py "在北京玩")
                (cue_pattern (chr "在"))
                {| m_string := py "在北京玩"; m_start := 0; m_end := 4;
                   m_marks := (Some 1%nat, Some 4%nat) |})
      as (run & Hg & _ & _ & _ & _ & Hmiss & _).
    + exists [],
        [cue_pattern (chr "去"); cue_pattern (chr "到"); weather_pattern].
      split; [reflexivity|]. split; [intros q [] | reflexivity].
    + apply Hmiss. injection Hg as <-.
      vm_compute. intuition discriminate.
  - destruct (greedy_capture_is_whole_run isalnum_cjk Note.CITY_MAP
                isalnum_cjk_ideograph (py "今天北京天气不错")
                weather_pattern
                {| m_string := py "今天北京天气不错"; m_start := 0;
                   m_end := 6; m_marks := (Some 0%nat, Some 4%nat) |})
      as (run & Hg & _ & _ & _ & _ & _ & Hlonger).
    + exists
        [cue_pattern (chr "在"); cue_pattern (chr "去"); cue_pattern (chr "到")],
        [].
      split; [reflexivity|]. split; [|reflexivity].
      intros q [<- | [<- | [<- | []]]]; reflexivity.
    + injection Hg as <-.
      apply (Hlonger (py "北京") (py "今天")).
      * vm_compute. auto.
      * discriminate.
      * right. reflexivity.
      * intros key Hk. vm_compute in Hk.
        repeat (destruct Hk as [<- | Hk]; [vm_compute; lia|]).
        destruct Hk.
Defined.


(** C10 fails as stated: in 去上海玩，在北京 the registered name 上海
    stands right after the cue 去 and is followed by the word character
    玩, and the extraction still yields a location, Beijing, because the
    pattern of 在 is tried first. *)
Lemma followed_name_does_not_stop_extraction :
  In (py "上海") (keys Note.CITY_MAP) /\
  is_word isalnum_cjk (chr "玩") = true /\
  py "去上海玩，在北京" = chr "去" :: py "上海" ++ chr "玩" :: py "，在北京" /\
  _extract_from_message isalnum_cjk Note.CITY_MAP (py "去上海玩，在北京")
    = Ok (Some (py "Beijing")) /\
  _extract_from_message isalnum_cjk Note.CITY_MAP (py "去上海玩，在北京")
    <> Ok None.
Proof.
  split; [vm_compute; auto|]. split; [reflexivity|].
  split; [reflexivity|]. split; [reflexivity|].
  vm_compute. discriminate.
Qed.

(** C4 on the code: no pattern matches 来北京出差了，天气好冷 (no cue
    of the first three patterns occurs, and 天气 follows a comma), so with
    no stored location [get_location] goes through the three steps and
    returns the default, whatever the city map; the scan of the keyword
    table does find Beijing in the message. *)
Theorem business_trip_message_falls_to_default :
  forall (CITY_MAP : dict) (user_id : Z),
    get_location_run isalnum_cjk CITY_MAP
      (WeatherConfig (lookupReturning None)) user_id
      (Some (py "来北京出差了，天气好冷"))
    = {| attempted := [FromMessage; FromUserConfig; FromSystemDefault];
         outcome := Ok {| canonicalLocation := py "Shanghai";
                          sourceTier := FromSystemDefault |} |}
    /\ get_location isalnum_cjk CITY_MAP
         (WeatherConfig (lookupReturning None)) user_id
         (Some (py "来北京出差了，天气好冷"))
       = Ok (py "Shanghai")
    /\ extract_location_from_message LOCATION_KEYWORDS
         (py "来北京出差了，天气好冷") = Some (py "Beijing").
Proof.
  intros CITY_MAP user_id. repeat split; reflexivity.
Qed.

(** C5 on the code: in 今天在杭州西湖边散步 the pattern of 在 captures
    杭州西湖边散步, which the city map does not have, so [get_location]
    returns the stored location Beijing with tier [FromUserConfig], as it
    does on the message of the note's section 2; the message contains one
    registered name, 杭州, and the scan of the keyword table finds
    Hangzhou. *)
Theorem west_lake_message_falls_to_config :
  forall (user_id : Z),
    get_location_run isalnum_cjk Note.CITY_MAP
      (WeatherConfig (lookupReturning (Some (py "Beijing")))) user_id
      (Some (py "今天在杭州西湖边散步"))
    = {| attempted := [FromMessage; FromUserConfig];
         outcome := Ok {| canonicalLocation := py "Beijing";
                          sourceTier := FromUserConfig |} |}
    /\ get_location isalnum_cjk Note.CITY_MAP
         (WeatherConfig (lookupReturning (Some (py "Beijing")))) user_id
         (Some (py "今天在杭州西湖边散步"))
       = Ok (py "Beijing")
    /\ get_location isalnum_cjk Note.CITY_MAP
         (WeatherConfig (lookupReturning (Some (py "Beijing")))) user_id
         (Some (py "今天在杭州西湖边散步，天气真好"))
       = Ok (py "Beijing")
    /\ (exists m,
          re_search isalnum_cjk (cue_pattern (chr "在"))
            (py "今天在杭州西湖边散步") = Some m /\
          group1 m = Ok (py "杭州西湖边散步"))
    /\ filter (fun cn => contains cn (py "今天在杭州西湖边散步"))
         (keys LOCATION_KEYWORDS) = [py "杭州"]
    /\ extract_location_from_message LOCATION_KEYWORDS
         (py "今天在杭州西湖边散步") = Some (py "Hangzhou").
Proof.
  intros user_id. split; [reflexivity|]. split; [reflexivity|].
  split; [reflexivity|].
  split; [eexists; split; reflexivity|].
  split; reflexivity.
Qed.

(* ================================================================== *)
(** ** The page script: theme switch *)

Import MainJs.
Local Open Scope string_scope.

(** X10.  On a page without the theme toggle the script leaves the page as
    it is.  On a page with the toggle, after the script has loaded and
    after any number of clicks, the attribute [data-theme] is "dark" or
    absent, the icon (when there is one) is the sun for dark and the moon
    for light, and once a click was made the stored theme is the one
    shown. *)
Theorem theme_attribute_icon_and_storage_agree :
  forall (pg : Page) (n : nat),
    initTheme false pg = pg /\
    let shown := Nat.iter n onToggleClick (initTheme true pg) in
    (data_theme shown = Some "dark" /\
     icon shown = option_map (fun _ => "☀️") (icon pg) /\
     (n <> 0%nat -> stored_theme shown = Some "dark"))
    \/
    (data_theme shown = None /\
     icon shown = option_map (fun _ => "🌙") (icon pg) /\
     (n <> 0%nat -> stored_theme shown = Some "light")).
Proof.
  intros pg n. split; [reflexivity|].
  induction n as [|n IH]; cbn zeta in *.
  - unfold initTheme, applyTheme.
    destruct (getCurrentTheme pg =? "dark"); simpl;
      [left | right]; repeat split; congruence.
  - rewrite Nat.iter_succ.
    remember (Nat.iter n onToggleClick (initTheme true pg)) as st eqn:Est.
    clear Est.
    destruct IH as [(Hd & Hi & _) | (Hd & Hi & _)];
      unfold onToggleClick, applyTheme; rewrite Hd; simpl;
      [right | left]; rewrite Hi;
      repeat split; destruct (icon pg); reflexivity.
Qed.

(** X11.  Every click changes the attribute [data-theme], and a click after
    two clicks gives the page of the first: the switch goes back and
    forth between two pages. *)
Theorem toggle_click_alternates :
  forall (pg : Page),
    data_theme (onToggleClick pg) <> data_theme pg /\
    onToggleClick (onToggleClick (onToggleClick pg)) = onToggleClick pg.
Proof.
  intros pg. unfold onToggleClick, applyTheme.
  destruct (data_theme pg) as [v|] eqn:Hd; simpl.
  - destruct (v =? "dark") eqn:Hv; simpl.
    + split; [discriminate|]. destruct (icon pg); reflexivity.
    + split; [|destruct (icon pg); reflexivity].
      intros [= <-]. discriminate.
  - split; [discriminate|]. destruct (icon pg); reflexivity.
Qed.

(** X12.  The theme that a click chose is the one shown when a page with the
    toggle and the same storage loads again, whatever the system prefers
    and whatever attribute and icon the new page starts with: the
    attribute [data-theme] is the one the click set, and the icon of the
    new page, when it has one, gets the glyph that the click gave the
    icon of the old page, when that had one. *)
Theorem clicked_theme_survives_reload :
  forall (pg fresh : Page),
    stored_theme fresh = stored_theme (onToggleClick pg) ->
    data_theme (initTheme true fresh) = data_theme (onToggleClick pg) /\
    exists glyph : string,
      icon (initTheme true fresh) = option_map (fun _ => glyph) (icon fresh) /\
      icon (onToggleClick pg) = option_map (fun _ => glyph) (icon pg).
Proof.
  intros pg fresh Hst.
  unfold initTheme, getCurrentTheme. rewrite Hst.
  unfold onToggleClick, applyTheme. cbn [stored_theme].
  destruct (match data_theme pg with
            | Some v => v =? "dark"
            | None => false
            end); simpl; (split; [reflexivity|]).
  - exists "🌙". split; reflexivity.
  - exists "☀️". split; reflexivity.
Qed.

Lemma clicked_theme_survives_reload_witness :
  data_theme
    (initTheme true
       {| stored_theme := Some "dark"; prefers_dark := false;
          data_theme := None; icon := None |})
  = data_theme
      (onToggleClick {| stored_theme := None; prefers_dark := false;
                        data_theme := None; icon := Some "🌙" |}).
Proof.
  refine (proj1 (clicked_theme_survives_reload
                   {| stored_theme := None; prefers_dark := false;
                      data_theme := None; icon := Some "🌙" |}
                   {| stored_theme := Some "dark"; prefers_dark := false;
                      data_theme := None; icon := None |} _)).
  reflexivity.
Defined.

(* ================================================================== *)
(** ** The page script: back-to-top button *)

Local Close Scope string_scope.

Section BackToTopFacts.

Variable number : Type.
Variable truthy_number : number -> bool.
Variable gt_300 : number -> bool.

#[local] Abbreviation step := (scroll_step truthy_number gt_300).

Lemma scroll_step_requests (b : Button) (ev : scroll_event number) :
  frame_requests b = (if ticking b then 1 else 0)%nat ->
  frame_requests (step b ev)
  = (if ticking (step b ev) then 1 else 0)%nat.
Proof.
  intros H. destruct ev as [|y t]; simpl.
  - unfold onScroll. destruct (ticking b) eqn:E; simpl;
      rewrite ?E, ?H; reflexivity.
  - unfold onFrame. rewrite H. destruct (ticking b) eqn:E; simpl;
      rewrite ?E; reflexivity.
Qed.

Lemma scroll_run_requests (events : list (scroll_event number)) :
  forall b,
    frame_requests b = (if ticking b then 1 else 0)%nat ->
    frame_requests (fold_left step events b)
    = (if ticking (fold_left step events b) then 1 else 0)%nat.
Proof.
  induction events as [|ev events IH]; intros b H; simpl; [exact H|].
  apply IH. now apply scroll_step_requests.
Qed.

(** X13.  However many scroll events arrive, at most one call of
    [updateBackToTop] is queued for the next frame: one while [ticking]
    is set, none otherwise. *)
Theorem at_most_one_frame_request :
  forall (shown : bool) (events : list (scroll_event number)),
    let b := fold_left step events (button_loaded shown) in
    frame_requests b = (if ticking b then 1 else 0)%nat.
Proof.
  intros shown events. now apply scroll_run_requests.
Qed.


End BackToTopFacts.

(* ================================================================== *)
(** ** The page script: [debounce] and [throttle] *)

Section TimerFacts.

Variable A : Type.

#[local] Abbreviation dstep := (debounce_step (A := A)).
#[local] Abbreviation tstep := (throttle_step (A := A)).

Lemma clearTimeout_pending (d : Debounced A) :
  one_pending d -> clearTimeout (timeout d) (later_timers d) = [].
Proof.
  intros [-> | (id & args & -> & ->)]; simpl.
  - destruct (timeout d); reflexivity.
  - now rewrite Nat.eqb_refl.
Qed.

Lemma debounce_step_pending (d : Debounced A) (ev : debounce_event A) :
  one_pending d ->
  one_pending (dstep d ev) /\
  (List.length (func_calls (dstep d ev))
   + List.length (later_timers (dstep d ev))
   <= List.length (func_calls d) + List.length (later_timers d)
      + match ev with Call _ => 1 | Fires _ => 0 end)%nat.
Proof.
  intros H. destruct ev as [args | id]; simpl.
  - unfold executedFunction. rewrite (clearTimeout_pending d H). simpl.
    split; [right; exists (next_timer d), args; split; reflexivity | lia].
  - unfold timerFires.
    destruct H as [Hn | (id' & args & Ht & Hto)].
    + rewrite Hn. simpl. split; [now left | rewrite Hn; simpl; lia].
    + rewrite Ht. simpl. destruct (Nat.eqb_spec id' id) as [-> | Hne].
      * simpl. rewrite ?Nat.eqb_refl. simpl.
        split; [left; now destruct (timeout d)|].
        destruct (timeout d); simpl; rewrite ?length_app, ?Ht; simpl; lia.
      * split; [right; exists id', args; split; assumption|].
        rewrite ?Ht; simpl; lia.
Qed.

Lemma debounce_run_pending (evs : list (debounce_event A)) :
  forall d,
    one_pending d ->
    one_pending (fold_left dstep evs d) /\
    (List.length (func_calls (fold_left dstep evs d))
     + List.length (later_timers (fold_left dstep evs d))
     <= List.length (func_calls d) + List.length (later_timers d)
        + calls_made evs)%nat.
Proof.
  induction evs as [|ev evs IH]; intros d H; simpl.
  - split; [exact H | unfold calls_made; simpl; lia].
  - destruct (debounce_step_pending d ev H) as [H1 H2].
    destruct (IH (dstep d ev) H1) as [H3 H4].
    split; [exact H3|].
    unfold calls_made in *. simpl.
    destruct ev; simpl in *; lia.
Qed.

(** X15.  After any history of calls and timers, a call leaves exactly one
    timer pending, its own: the timers of all earlier calls are gone, and
    when the timer fires [func] is called once, with the arguments of
    that last call.  [func] is never called more often than the debounced
    function was. *)
Theorem debounce_keeps_only_the_last_call :
  forall (evs : list (debounce_event A)) (args : A),
    let before := fold_left dstep evs (debounce A) in
    let d := executedFunction args before in
    (exists id,
        later_timers d = [(id, args)] /\
        timeout d = Some id /\
        func_calls d = func_calls before /\
        func_calls (timerFires id d) = func_calls before ++ [args] /\
        later_timers (timerFires id d) = [] /\
        forall id', id' <> id -> timerFires id' d = d)
    /\ (List.length (func_calls before) <= calls_made evs)%nat.
Proof.
  intros evs args. cbn zeta.
  destruct (debounce_run_pending evs (debounce A)) as [Hp Hlen];
    [now left|].
  split.
  - exists (next_timer (fold_left dstep evs (debounce A))).
    unfold executedFunction, timerFires.
    rewrite (clearTimeout_pending _ Hp). simpl.
    rewrite !Nat.eqb_refl. simpl. rewrite ?Nat.eqb_refl. simpl.
    repeat split.
    intros id' Hne.
    destruct (Nat.eqb_spec (next_timer (fold_left dstep evs (debounce A)))
                id'); [congruence | reflexivity].
  - simpl in Hlen. lia.
Qed.

Lemma throttle_run_bound (evs : list (throttle_event A)) :
  forall t e,
    returns_at_once t evs = true ->
    (running t <= 1)%nat ->
    reset_timers t = (if inThrottle t then 1 else 0)%nat ->
    (running t = 1%nat -> inThrottle t = false) ->
    (List.length (applied t)
     <= e + running t + (if inThrottle t then 1 else 0))%nat ->
    running (fold_left tstep evs t) = 0%nat /\
    reset_timers (fold_left tstep evs t)
    = (if inThrottle (fold_left tstep evs t) then 1 else 0)%nat /\
    (List.length (applied (fold_left tstep evs t))
     <= e + expiries evs
        + (if inThrottle (fold_left tstep evs t) then 1 else 0))%nat.
Proof.
  induction evs as [|ev evs IH]; intros t e Hok Hrun Hr Hone Hl.
  - simpl in *. apply Nat.eqb_eq in Hok. rewrite Hok in Hl.
    unfold expiries. simpl. repeat split; [exact Hok | exact Hr | lia].
  - destruct t as [b n calls r]. simpl in Hrun, Hr, Hone, Hl.
    cbn [fold_left]. cbn [returns_at_once running] in Hok.
    destruct r as [|r]; destruct ev as [args| | |]; try discriminate Hok.
    + (* a call of the throttled function *)
      destruct b.
      * apply (IH _ e Hok); simpl; auto.
      * apply (IH _ e Hok); simpl in *;
          rewrite ?length_app; simpl; solve [lia | auto].
    + (* a timer fires *)
      destruct b; subst n;
        (destruct (IH _ (S e) Hok) as (H1 & H2 & H3);
         [simpl in *; solve [lia | auto | discriminate] .. |]);
        (split; [exact H1|]); (split; [exact H2|]);
        unfold expiries in *; simpl in *; lia.
    + (* [func] returns *)
      assert (r = 0%nat) as -> by lia.
      rewrite (Hone eq_refl) in Hr, Hl. subst n.
      apply (IH _ e Hok); simpl in *; solve [lia | auto | discriminate].
Qed.

(** X16.  When every call of [func] returns before anything else happens
    ([func] neither throws nor calls the throttled function again), a
    throttled function calls [func] at most once more than its timer
    expired, however often it is called itself; one reset timer is
    pending while [inThrottle] is set and none otherwise, and a call made
    while it is set changes nothing, then or later. *)
Theorem throttle_limits_the_rate :
  forall (evs : list (throttle_event A)),
    returns_at_once (throttle A) evs = true ->
    let t := fold_left tstep evs (throttle A) in
    (List.length (applied t) <= S (expiries evs))%nat /\
    reset_timers t = (if inThrottle t then 1 else 0)%nat /\
    (inThrottle t = true -> forall args, throttled args t = t).
Proof.
  intros evs Hok. cbn zeta.
  destruct (throttle_run_bound evs (throttle A) 0 Hok) as (_ & Hr & Hl);
    [simpl; lia | reflexivity | discriminate | simpl; lia |].
  split; [destruct (inThrottle _); simpl in Hl; lia|].
  split; [exact Hr|].
  intros Ht args. unfold throttled. now rewrite Ht.
Qed.

Lemma throwing_calls_from (calls : list A) :
  forall done,
    fold_left tstep (flat_map (fun args => [Apply args; Throws]) calls)
      {| inThrottle := false; reset_timers := 0; applied := done;
         running := 0 |}
    = {| inThrottle := false; reset_timers := 0; applied := done ++ calls;
         running := 0 |}.
Proof.
  induction calls as [|args calls IH]; intros done; simpl.
  - now rewrite app_nil_r.
  - unfold throttled, funcThrows. simpl. rewrite IH.
    now rewrite <- app_assoc.
Qed.

(** X17.  A [func] that throws is not throttled: when every call of [func]
    throws, every call of the throttled function calls [func], with no
    timer expiring in between; [inThrottle] is never set and no timer is
    started. *)
Theorem throwing_func_is_not_throttled :
  forall (calls : list A),
    fold_left tstep (flat_map (fun args => [Apply args; Throws]) calls)
      (throttle A)
    = {| inThrottle := false; reset_timers := 0; applied := calls;
         running := 0 |}.
Proof.
  intros calls. apply (throwing_calls_from calls []).
Qed.

Lemma nested_calls_from (calls : list A) :
  forall done r,
    fold_left tstep (map Apply calls)
      {| inThrottle := false; reset_timers := 0; applied := done;
         running := r |}
    = {| inThrottle := false; reset_timers := 0; applied := done ++ calls;
         running := r + List.length calls |}.
Proof.
  induction calls as [|args calls IH]; intros done r; simpl.
  - now rewrite app_nil_r, Nat.add_0_r.
  - unfold throttled. simpl. rewrite IH. rewrite <- app_assoc. simpl.
    f_equal. lia.
Qed.

Lemma nested_returns_from (n : nat) :
  forall (b : bool) (k : nat) (done : list A),
    fold_left tstep (repeat Returns n)
      {| inThrottle := b; reset_timers := k; applied := done;
         running := n |}
    = {| inThrottle := match n with O => b | S _ => true end;
         reset_timers := k + n; applied := done; running := 0 |}.
Proof.
  induction n as [|n IH]; intros b k done; simpl.
  - now rewrite Nat.add_0_r.
  - unfold funcReturns. simpl. rewrite IH. f_equal; [|lia].
    now destruct n.
Qed.

(** X18.  A [func] that calls the throttled function again before it
    returns is called again at once: [inThrottle] is set only after
    [func] has returned.  Calls nested in this way all reach [func], and
    each of them starts a timer of its own when it returns. *)
Theorem nested_calls_are_not_throttled :
  forall (calls : list A),
    fold_left tstep
      (map Apply calls ++ repeat Returns (List.length calls)) (throttle A)
    = {| inThrottle := match calls with [] => false | _ :: _ => true end;
         reset_timers := List.length calls;
         applied := calls;
         running := 0 |}.
Proof.
  intros calls. rewrite fold_left_app.
  unfold throttle. rewrite (nested_calls_from calls [] 0). simpl.
  rewrite nested_returns_from. simpl. now destruct calls.
Qed.

End TimerFacts.

(* ================================================================== *)
(** ** Instances *)

Lemma extract_location_none_in_part_witness :
  extract_location_from_message LOCATION_KEYWORDS (py "在家") = None.
Proof.
  apply (extract_location_none_in_part LOCATION_KEYWORDS
           (py "在家") (py "今天在家休息")).
  - apply contains_spec. reflexivity.
  - reflexivity.
Defined.

Lemma extract_location_short_message_witness :
  extract_location_from_message LOCATION_KEYWORDS (py "京") = None.
Proof.
  apply (extract_location_short_message LOCATION_KEYWORDS (py "京")).
  vm_compute. repeat constructor.
Defined.

Lemma cue_match_is_first_cue_and_whole_run_witness :
  exists pre run rest,
    py "今天在杭州西湖边散步" = pre ++ chr "在" :: run ++ rest /\
    run <> [] /\
    Forall (fun c => is_word isalnum_cjk c = true) run /\
    word_ahead isalnum_cjk rest = false /\
    (forall p1 p2, pre = p1 ++ chr "在" :: p2 ->
       word_ahead isalnum_cjk (p2 ++ chr "在" :: run ++ rest) = false) /\
    m_start {| m_string := py "今天在杭州西湖边散步"; m_start := 2;
               m_end := 10; m_marks := (Some 3%nat, Some 10%nat) |}
    = List.length pre /\
    group1 {| m_string := py "今天在杭州西湖边散步"; m_start := 2;
              m_end := 10; m_marks := (Some 3%nat, Some 10%nat) |}
    = Ok run.
Proof.
  apply (cue_match_is_first_cue_and_whole_run isalnum_cjk (chr "在")
           (py "今天在杭州西湖边散步")).
  reflexivity.
Defined.

Lemma cue_no_match_iff_witness :
  re_search isalnum_cjk (cue_pattern (chr "在")) (py "在，") = None.
Proof.
  apply (proj2 (cue_no_match_iff isalnum_cjk (chr "在") (py "在，"))).
  intros pre rest H. vm_compute in H.
  destruct pre as [|a [|b pre]]; simpl in H.
  - injection H as <-. reflexivity.
  - injection H as _ H. discriminate H.
  - injection H as _ _ H. destruct pre; discriminate H.
Defined.

Lemma weather_match_runs_up_to_weather_witness :
  exists pre run rest,
    py "，北京市天气不错" = pre ++ run ++ chr "天" :: chr "气" :: rest /\
    run <> [] /\
    Forall (fun c => is_word isalnum_cjk c = true) run /\
    (forall pre' c, pre = pre' ++ [c] -> is_word isalnum_cjk c = false) /\
    m_start {| m_string := py "，北京市天气不错"; m_start := 1;
               m_end := 6; m_marks := (Some 1%nat, Some 4%nat) |}
    = List.length pre /\
    m_end {| m_string := py "，北京市天气不错"; m_start := 1;
             m_end := 6; m_marks := (Some 1%nat, Some 4%nat) |}
    = (List.length pre + List.length run + 2)%nat /\
    group1 {| m_string := py "，北京市天气不错"; m_start := 1;
              m_end := 6; m_marks := (Some 1%nat, Some 4%nat) |}
    = Ok run.
Proof.
  apply (weather_match_runs_up_to_weather isalnum_cjk
           isalnum_cjk_ideograph (py "，北京市天气不错")).
  reflexivity.
Defined.

Lemma extracted_location_has_word_key_witness :
  exists key,
    key <> [] /\
    Forall (fun c => is_word isalnum_cjk c = true) key /\
    occurs_in key (py "在北京") /\
    dict_get Note.CITY_MAP key = Some (py "Beijing").
Proof.
  apply (extracted_location_has_word_key isalnum_cjk Note.CITY_MAP
           (py "在北京") (py "Beijing")).
  reflexivity.
Defined.

Lemma message_without_cue_falls_through_witness :
  _extract_from_message isalnum_cjk Note.CITY_MAP (py "杭州西湖真美")
  = Ok None.
Proof.
  refine (proj1 (message_without_cue_falls_through isalnum_cjk
                   Note.CITY_MAP (py "杭州西湖真美") _ _)).
  - vm_compute. intros cue Hc Hm.
    repeat (destruct Hc as [<- | Hc];
            [repeat (destruct Hm as [Hm | Hm]; [discriminate Hm|]);
             exact Hm|]).
    exact Hc.
  - rewrite <- contains_spec. vm_compute. discriminate.
Defined.

Lemma theme_attribute_icon_and_storage_agree_witness :
  MainJs.stored_theme
    (MainJs.onToggleClick
       (MainJs.initTheme true
          {| MainJs.stored_theme := None; MainJs.prefers_dark := true;
             MainJs.data_theme := None; MainJs.icon := None |}))
  = Some "light"%string.
Proof.
  destruct (theme_attribute_icon_and_storage_agree
              {| MainJs.stored_theme := None; MainJs.prefers_dark := true;
                 MainJs.data_theme := None; MainJs.icon := None |} 1)
    as [_ [(Hd & _) | (_ & _ & Hs)]].
  - discriminate Hd.
  - apply Hs. discriminate.
Defined.

Lemma debounce_keeps_only_the_last_call_witness :
  (List.length
     (MainJs.func_calls
        (fold_left MainJs.debounce_step
           [MainJs.Call 1%nat; MainJs.Fires 0; MainJs.Call 2%nat]
           (MainJs.debounce nat)))
   <= 2)%nat.
Proof.
  exact (proj2 (debounce_keeps_only_the_last_call nat
                  [MainJs.Call 1%nat; MainJs.Fires 0; MainJs.Call 2%nat]
                  3%nat)).
Defined.

Lemma throttle_limits_the_rate_witness :
  (List.length
     (MainJs.applied
        (fold_left MainJs.throttle_step
           [MainJs.Apply 1%nat; MainJs.Returns; MainJs.Apply 2%nat;
            MainJs.Expires; MainJs.Apply 3%nat; MainJs.Returns]
           (MainJs.throttle nat)))
   <= 2)%nat.
Proof.
  refine (proj1 (throttle_limits_the_rate nat
                   [MainJs.Apply 1%nat; MainJs.Returns; MainJs.Apply 2%nat;
                    MainJs.Expires; MainJs.Apply 3%nat; MainJs.Returns] _)).
  reflexivity.
Defined.
